(** * Manual channel aligner: the transform, display and save pipeline

    A shallow embedding of [manual_channel_aligner/core.py] and of the pure
    helpers and the load/save control flow of [manual_channel_aligner/app.py],
    followed by the properties the specification states about them.

    Conventions of the embedding.
    - Python [float] values are rationals [Q]: arithmetic is exact, there is
      no NaN and no infinity.
    - Python's two-argument [max] and [min] keep their first argument unless
      the second one is strictly larger (smaller); [py_max] and [py_min]
      follow that, so the value they return is one of their arguments.
    - The imaging library the program calls (Pillow) is not part of the
      program.  Its operations are modelled in [Module Imaging] after their
      documented behaviour: nearest-neighbour affine resampling is written
      out, while the trigonometric functions, the interpolating kernels and
      the mode conversion tables are fields of the class [Runtime] and are
      left arbitrary in every general statement. *)

From Stdlib Require Import Ascii QArith Qround Qminmax Qabs Lqa.
From stdpp Require Import base option list strings gmap pretty.

Set Default Proof Using "Type".
Local Open Scope Q_scope.

(** * Part I: the embedding *)

(** ** Python numerics *)

Module Py.

Definition Qltb (a b : Q) : bool := negb (Qle_bool b a).

(** [max(a, b)]: [b] if [b > a], else [a]. *)
Definition py_max (a b : Q) : Q := if Qltb a b then b else a.

(** [min(a, b)]: [b] if [b < a], else [a]. *)
Definition py_min (a b : Q) : Q := if Qltb b a then b else a.

(** Truth value of a number: anything but zero. *)
Definition truthy (a : Q) : bool := negb (Qeq_bool a 0).

(** [int(v)]: truncation towards zero. *)
Definition py_int (v : Q) : Z := Z.quot (Qnum v) (Zpos (Qden v)).

(** Exceptions the modelled code raises or lets through. *)
Inductive exn : Type :=
  | ValueError (msg : string)
  | IndexError (msg : string)
  | OSError (msg : string).

(** [str(exc)] *)
Definition exn_str (e : exn) : string :=
  match e with ValueError m | IndexError m | OSError m => m end.

Definition result (A : Type) : Type := exn + A.

End Py.
Export Py.

(** ** The imaging library *)

Module Imaging.

(** One band of an image: [height] scanlines of [width] samples. *)
Definition Plane : Type := list (list Q).

Record Image : Type := mkImage {
  mode : string;
  size : nat * nat;          (* (width, height) *)
  bands : list Plane
}.

Definition width (im : Image) : nat := fst (size im).
Definition height (im : Image) : nat := snd (size im).

Definition wf_plane (sz : nat * nat) (p : Plane) : bool :=
  (length p =? snd sz)%nat && forallb (fun row => (length row =? fst sz)%nat) p.

Definition wf_image (im : Image) : bool := forallb (wf_plane (size im)) (bands im).

(** The sample at column [x] of scanline [y], if the plane has one. *)
Definition plane_get (sz : nat * nat) (p : Plane) (x y : Z) : option Q :=
  if ((0 <=? x)%Z && (x <? Z.of_nat (fst sz))%Z &&
      (0 <=? y)%Z && (y <? Z.of_nat (snd sz))%Z)%bool
  then p !! Z.to_nat y ≫= (fun row => row !! Z.to_nat x)
  else None.

(** Pixel coordinates inside an image of size [sz]. *)
Definition in_bounds (sz : nat * nat) (x y : Z) : Prop :=
  (0 <= x < Z.of_nat (fst sz))%Z /\ (0 <= y < Z.of_nat (snd sz))%Z.

(** A plane given sample by sample. *)
Definition tabulate (sz : nat * nat) (f : nat -> nat -> Q) : Plane :=
  (fun y => (fun x => f x y) <$> seq 0 (fst sz)) <$> seq 0 (snd sz).

(** [Image.getpixel((x, y))]: one sample per band; [None] stands for the
    [IndexError] raised outside the image. *)
Definition getpixel (im : Image) (x y : Z) : option (list Q) :=
  mapM (fun p => plane_get (size im) p x y) (bands im).

(** The same function applied to every sample of a plane. *)
Definition plane_map (f : Q -> Q) (p : Plane) : Plane := map (map f) p.

(** [Image.getdata()] of one band, scanline after scanline. *)
Definition getdata (p : Plane) : list Q := concat p.

Inductive Resample : Type := NEAREST | BILINEAR | BICUBIC.

(** What the embedding takes from the Python runtime and from the imaging
    library without fixing its numerics. *)
Class Runtime : Type := {
  (** [math.cos(math.radians(a))] and [math.sin(math.radians(a))] *)
  cos_deg : Q -> Q;
  sin_deg : Q -> Q;
  (** the interpolating kernels: the value at a source position, or [None]
      when the position is outside the source *)
  bilinear_filter : nat * nat -> Plane -> Q -> Q -> option Q;
  bicubic_filter : nat * nat -> Plane -> Q -> Q -> option Q;
  (** the single band [convert("L")] computes from an image of another mode *)
  luma_band : Image -> Plane
}.

(** Nearest neighbour: the sample whose cell holds the source position. *)
Definition nearest_filter (sz : nat * nat) (p : Plane) (xin yin : Q) : option Q :=
  plane_get sz p (Qfloor xin) (Qfloor yin).

Definition Matrix : Type := Q * Q * Q * Q * Q * Q.

Section Ops.
Context `{Runtime}.

Definition sample (r : Resample) : nat * nat -> Plane -> Q -> Q -> option Q :=
  match r with
  | NEAREST => nearest_filter
  | BILINEAR => bilinear_filter
  | BICUBIC => bicubic_filter
  end.

(** The source position of output pixel [(x, y)]: the matrix is applied
    to the pixel centre. *)
Definition affine_point (data : Matrix) (x y : nat) : Q * Q :=
  let '(a0, a1, a2, b0, b1, b2) := data in
  let xin := inject_Z (Z.of_nat x) + (1 # 2) in
  let yin := inject_Z (Z.of_nat y) + (1 # 2) in
  (a0 * xin + a1 * yin + a2, b0 * xin + b1 * yin + b2).

(** [image.transform(out_size, Image.AFFINE, data, resample=r,
    fillcolor=fill)]: every output pixel is looked up at its source
    position; where the kernel finds nothing the fill colour stays. *)
Definition transform (im : Image) (out_size : nat * nat) (data : Matrix)
    (r : Resample) (fill : Q) : Image :=
  mkImage (mode im) out_size
    ((fun p => tabulate out_size (fun x y =>
        let '(xin, yin) := affine_point data x y in
        default fill (sample r (size im) p xin yin))) <$> bands im).

(** [image.rotate(angle, resample=r, expand=False, fillcolor=fill)]: a
    rotation about the centre [(w/2, h/2)], done as one affine
    resampling.  The library's shortcuts for multiples of a quarter turn
    give the same picture and are not modelled apart. *)
Definition rotate (im : Image) (angle : Q) (r : Resample) (fill : Q) : Image :=
  let ca := cos_deg angle in
  let sa := sin_deg angle in
  let cx := inject_Z (Z.of_nat (width im)) / 2 in
  let cy := inject_Z (Z.of_nat (height im)) / 2 in
  let m2 := ca * (- cx) + (- sa) * (- cy) + cx in
  let m5 := sa * (- cx) + ca * (- cy) + cy in
  transform im (size im) (ca, - sa, m2, sa, ca, m5) r fill.


(** [image.copy()]: the same picture (as a value). *)
Definition copy (im : Image) : Image := im.

(** [image.crop((x0, y0, x0 + w, y0 + h))]; outside the source the crop
    is 0. *)
Definition crop (im : Image) (x0 y0 : Z) (w h : nat) : Image :=
  mkImage (mode im) (w, h)
    ((fun p => tabulate (w, h) (fun x y =>
        default 0 (plane_get (size im) p (x0 + Z.of_nat x) (y0 + Z.of_nat y))))
     <$> bands im).

(** [image.convert("L")]: a copy when the image is in mode L already. *)
Definition convert_L (im : Image) : Image :=
  if String.eqb (mode im) "L" then copy im
  else mkImage "L" (size im) [luma_band im].

(** [image.point(f, mode="L")]: every sample goes through [f]. *)
Definition point (im : Image) (f : Q -> Z) : Image :=
  mkImage "L" (size im) (plane_map (fun v => inject_Z (f v)) <$> bands im).
End Ops.

(** [ImageOps.autocontrast(image)] with its default arguments: per band,
    the lowest and highest sample present are stretched to 0 and 255. *)
Definition band_lo (p : Plane) : Z :=
  foldr (fun v acc => Z.min (Qfloor v) acc) 255%Z (getdata p).

Definition band_hi (p : Plane) : Z :=
  foldr (fun v acc => Z.max (Qfloor v) acc) 0%Z (getdata p).

Definition autocontrast_lut (lo hi : Z) (ix : Z) : Z :=
  if (hi <=? lo)%Z then ix
  else
    let scale := 255 / inject_Z (hi - lo) in
    let offset := - inject_Z lo * scale in
    let v := py_int (inject_Z ix * scale + offset) in
    if (v <? 0)%Z then 0%Z else if (255 <? v)%Z then 255%Z else v.

Definition autocontrast (im : Image) : Image :=
  mkImage (mode im) (size im)
    ((fun p => plane_map (fun v =>
         inject_Z (autocontrast_lut (band_lo p) (band_hi p) (Qfloor v))) p)
     <$> bands im).

End Imaging.
Export Imaging.

(** ** Strings as Python uses them *)

Module PyStr.

(** [str.lower()] on ASCII text. *)
Definition lower_ascii (c : ascii) : ascii :=
  let n := nat_of_ascii c in
  if ((65 <=? n)%nat && (n <=? 90)%nat)%bool then ascii_of_nat (n + 32) else c.

Fixpoint lower (s : string) : string :=
  match s with
  | EmptyString => EmptyString
  | String c r => String (lower_ascii c) (lower r)
  end.

(** [needle in hay]: [needle] starts at some position of [hay]. *)
Fixpoint contains (needle hay : string) : bool :=
  String.prefix needle hay ||
  match hay with
  | EmptyString => false
  | String _ r => contains needle r
  end.

(** The number of positions of [hay] at which [needle] starts. *)
Fixpoint occurrences (needle hay : string) : nat :=
  ((if String.prefix needle hay then 1 else 0) +
   match hay with
   | EmptyString => 0
   | String _ r => occurrences needle r
   end)%nat.

(** The same count when letter case is ignored, which is how the code
    looks for the marker. *)
Definition ci_occurrences (needle hay : string) : nat :=
  occurrences (lower needle) (lower hay).

(** All suffixes of a string, the string itself first. *)
Fixpoint suffixes (s : string) : list string :=
  s :: match s with
       | EmptyString => []
       | String _ r => suffixes r
       end.

End PyStr.
Export PyStr.

(** ** The metadata directory ([TiffImagePlugin.ImageFileDirectory_v2]) *)

(** A tag value: text, or a number (the two kinds of value whose truth
    value and [str()] the code looks at). *)
Inductive TagValue : Type :=
  | TagText (s : string)
  | TagInt (n : Z).

Definition tag_truthy (v : TagValue) : bool :=
  match v with
  | TagText s => negb (String.eqb s "")
  | TagInt n => negb (n =? 0)%Z
  end.

Definition tag_str (v : TagValue) : string :=
  match v with
  | TagText s => s
  | TagInt n => pretty n
  end.

Abbreviation Directory := (gmap Z TagValue).

(** Entries of [image.info] that are carried over to the saved file. *)
Inductive InfoValue : Type :=
  | InfoPair (x y : Q)
  | InfoText (s : string)
  | InfoBytes (b : list Z).

Definition info_truthy (v : InfoValue) : bool :=
  match v with
  | InfoPair _ _ => true
  | InfoText s => negb (String.eqb s "")
  | InfoBytes b => negb (bool_decide (b = []))
  end.

Abbreviation Kwargs := (gmap string InfoValue).

(** ** Files *)

(** An image file as [Image.open] presents it: its first frame, the frames
    after it, and the metadata of the opened image. *)
Record ImageFile : Type := mkImageFile {
  frame0 : Image;
  more_frames : list Image;
  tag_v2 : option Directory;
  info : Kwargs
}.

Definition n_frames (f : ImageFile) : nat := S (length (more_frames f)).

(** [image.seek(idx); image.copy()] for [idx < n_frames]. *)
Definition frame (f : ImageFile) (idx : nat) : option Image :=
  (frame0 f :: more_frames f) !! idx.

Inductive FsEntry : Type :=
  | ImageEntry (f : ImageFile)
  | OtherEntry.                (* a directory, or a file that is no image *)

(** The part of the operating system the program consults. *)
Record World : Type := mkWorld {
  files : gmap string FsEntry;
  abspath : string -> string;       (* [os.path.abspath] *)
  basename : string -> string;      (* [os.path.basename] *)
  writable : string -> bool         (* whether writing the path succeeds *)
}.

(** [os.path.exists] *)
Definition path_exists (w : World) (p : string) : bool :=
  bool_decide (is_Some (files w !! p)).

(** [Image.open] *)
Definition image_open (w : World) (p : string) : result ImageFile :=
  match files w !! p with
  | Some (ImageEntry f) => inr f
  | Some OtherEntry => inl (OSError "cannot identify image file")
  | None => inl (OSError "No such file or directory")
  end.

(** ** [core.py] *)

Module Core.

(** A small error monad for the code that raises. *)
#[global] Instance result_ret : MRet result := fun A a => inr a.
#[global] Instance result_bind : MBind result := fun A B k m =>
  match m with
  | inl e => inl e
  | inr a => k a
  end.

Fixpoint mapM_result {A B : Type} (f : A -> result B) (l : list A) : result (list B) :=
  match l with
  | [] => mret []
  | a :: r => b ← f a; bs ← mapM_result f r; mret (b :: bs)
  end.

Record TransformState : Type := mkTransformState {
  dx : Q;
  dy : Q;
  angle_deg : Q
}.

(** [TransformState()] *)
Definition identity_state : TransformState := mkTransformState 0 0 0.

Record ChannelStack : Type := mkChannelStack {
  channels : list Image;
  source_paths : list string;
  tiffinfo : option Directory;
  save_kwargs : option Kwargs
}.

Section Core.
Context `{Runtime}.

Definition apply_transform (image : Image) (state : TransformState)
    (resample : Resample) : Image :=
  let out := copy image in
  let out :=
    if truthy (angle_deg state)
    then rotate out (angle_deg state) resample 0
    else out in
  let out :=
    if (truthy (dx state) || truthy (dy state))%bool
    then transform out (size out) (1, 0, - dx state, 0, 1, - dy state) resample 0
    else out in
  out.

Definition _apply_display_levels (image : Image) (min_val max_val : Q) : Image :=
  if Qle_bool max_val min_val then convert_L image
  else
    let image :=
      if negb (bool_decide (mode image ∈ ["L"; "I"; "I;16"; "F"]))
      then convert_L image else image in
    let scale := 255 / (max_val - min_val) in
    let mapper (v : Q) : Z :=
      if Qle_bool v min_val then 0%Z
      else if Qle_bool max_val v then 255%Z
      else py_int ((v - min_val) * scale) in
    point image mapper.

Definition to_display_gray (image : Image) (display_range : option (Q * Q)) : Image :=
  match display_range with
  | Some (min_val, max_val) => _apply_display_levels image min_val max_val
  | None =>
      let image := if negb (String.eqb (mode image) "L") then convert_L image else image in
      autocontrast image
  end.
End Core.

Definition _copy_tiffinfo (tiffinfo : Directory) : Directory :=
  map_fold (fun tag value (info : Directory) => <[tag := value]> info) ∅ tiffinfo.

Definition _extract_tiffinfo (image : ImageFile) : option Directory :=
  match tag_v2 image with
  | None => None
  | Some t => if bool_decide (t = ∅) then None else Some (_copy_tiffinfo t)
  end.

Definition _extract_save_kwargs (image : ImageFile) : Kwargs :=
  let keep (key : string) (save_kwargs : Kwargs) : Kwargs :=
    match info image !! key with
    | Some v => if info_truthy v then <[key := v]> save_kwargs else save_kwargs
    | None => save_kwargs
    end in
  keep "icc_profile" (keep "compression" (keep "dpi" ∅)).

Definition _ensure_same_size (channels : list Image) : result unit :=
  let sizes : gset (nat * nat) := list_to_set (Imaging.size <$> channels) in
  if bool_decide (base.size sizes ≠ 1%nat)
  then inl (ValueError "All channels must have the same dimensions.")
  else inr tt.

(** One single-band image per band ([image.split()]). *)
Definition split (image : Image) : list Image :=
  (fun p => mkImage "L" (Imaging.size image) [p]) <$> bands image.

Definition load_channels_from_paths (w : World) (paths : list string) : result ChannelStack :=
  match paths with
  | [] => inl (ValueError "No input paths provided.")
  | path :: more =>
      let source_paths := paths in
      if (1 <? length paths)%nat then
        opened ← mapM_result (image_open w) paths;
        let tiffinfo := head opened ≫= _extract_tiffinfo in
        let save_kwargs := default ∅ (_extract_save_kwargs <$> head opened) in
        let channels := (fun f => copy (frame0 f)) <$> opened in
        _ ← _ensure_same_size channels;
        inr (mkChannelStack channels source_paths tiffinfo (Some save_kwargs))
      else
        image ← image_open w path;
        if (1 <? n_frames image)%nat then
          let tiffinfo := _extract_tiffinfo image in
          let save_kwargs := _extract_save_kwargs image in
          let channels := copy <$> (frame0 image :: more_frames image) in
          _ ← _ensure_same_size channels;
          inr (mkChannelStack channels source_paths tiffinfo (Some save_kwargs))
        else if (1 <? length (bands (frame0 image)))%nat then
          let channels := copy <$> split (frame0 image) in
          _ ← _ensure_same_size channels;
          let tiffinfo := _extract_tiffinfo image in
          let save_kwargs := _extract_save_kwargs image in
          inr (mkChannelStack channels source_paths tiffinfo (Some save_kwargs))
        else
          let tiffinfo := _extract_tiffinfo image in
          let save_kwargs := _extract_save_kwargs image in
          let channel := copy (frame0 image) in
          inr (mkChannelStack [channel] source_paths tiffinfo (Some save_kwargs))
  end.

(** Writing puts a multi-frame file at [path]; the world decides whether
    the write succeeds. *)
Definition save_channels (w : World) (channels : list Image) (path : string)
    (tiffinfo : option Directory) (save_kwargs : option Kwargs) : result World :=
  match channels with
  | [] => inl (ValueError "No channels to save.")
  | first :: rest =>
      let kwargs := default ∅ save_kwargs in
      let written := mkImageFile first rest (_copy_tiffinfo <$> tiffinfo) kwargs in
      if writable w path
      then inr (mkWorld (<[path := ImageEntry written]> (files w))
                        (abspath w) (basename w) (writable w))
      else inl (OSError "cannot write file")
  end.

Definition default_tag_text : string := "Manual Aligned".

Definition add_alignment_tag (tiffinfo : option Directory) (tag_text : string) : Directory :=
  let info : Directory :=
    match tiffinfo with
    | Some t => _copy_tiffinfo t
    | None => ∅
    end in
  let existing := info !! 270%Z in
  match existing with
  | Some v =>
      if tag_truthy v then
        let existing_text := tag_str v in
        if negb (contains (lower tag_text) (lower existing_text))
        then <[270%Z := TagText (existing_text +:+ " | " +:+ tag_text)]> info
        else info
      else <[270%Z := TagText tag_text]> info
  | None => <[270%Z := TagText tag_text]> info
  end.

(** The text of the description tag (tag 270), empty when there is none. *)
Definition description (info : Directory) : string :=
  match info !! 270%Z with
  | Some v => tag_str v
  | None => ""
  end.

End Core.
Export Core.

(** ** Images as objects

    [apply_transform] works on image objects.  Here the objects live in a
    heap; every library call reads its argument and allocates its result,
    as [copy], [rotate] and [transform] are documented to do. *)

Module Obj.

Definition Ref : Type := nat.
Definition Heap : Type := list Image.

(** A computation on the heap; [None] is a dangling reference. *)
Definition M (A : Type) : Type := Heap -> option (A * Heap).

#[global] Instance M_ret : MRet M := fun A a h => Some (a, h).
#[global] Instance M_bind : MBind M := fun A B k m h =>
  match m h with
  | Some (a, h') => k a h'
  | None => None
  end.

Definition read (r : Ref) : M Image := fun h =>
  match (h : list Image) !! r with
  | Some im => Some (im, h)
  | None => None
  end.

Definition alloc (im : Image) : M Ref := fun h => Some (length h, h ++ [im]).

Section Obj.
Context `{Runtime}.

Definition copy (r : Ref) : M Ref :=
  im ← read r; alloc (Imaging.copy im).

Definition rotate (r : Ref) (angle : Q) (resample : Resample) (fill : Q) : M Ref :=
  im ← read r; alloc (Imaging.rotate im angle resample fill).

Definition transform (r : Ref) (data : Matrix) (resample : Resample) (fill : Q) : M Ref :=
  im ← read r; alloc (Imaging.transform im (size im) data resample fill).

Definition apply_transform (image : Ref) (state : TransformState)
    (resample : Resample) : M Ref :=
  out ← copy image;
  out ← (if truthy (angle_deg state)
         then rotate out (angle_deg state) resample 0
         else mret out);
  out ← (if (truthy (dx state) || truthy (dy state))%bool
         then transform out (1, 0, - dx state, 0, 1, - dy state) resample 0
         else mret out);
  mret out.
End Obj.

End Obj.

(** ** [app.py] *)


(** The largest start fraction that keeps the canvas inside the content. *)
Definition max_scroll_start (scroll_w canvas_w : Q) : Q :=
  py_max 0 (1 - canvas_w / scroll_w).

Definition clamp_scroll_fraction (value scroll_w canvas_w : Q) : Q :=
  if Qle_bool scroll_w 0 then 0
  else
    let max_start := py_max 0 (1 - canvas_w / scroll_w) in
    py_min (py_max value 0) max_start.

Section Affine.
Context `{Runtime}.

Definition affine_matrix_for_state (state : TransformState) (size : nat * nat) : Matrix :=
  let ca := cos_deg (angle_deg state) in
  let sa := sin_deg (angle_deg state) in
  let cx := inject_Z (Z.of_nat (fst size)) / 2 in
  let cy := inject_Z (Z.of_nat (snd size)) / 2 in
  let dx := dx state in
  let dy := dy state in
  let a0 := ca in
  let a1 := - sa in
  let a2 := (- ca * dx) - (ca * cx) + (sa * dy) + (sa * cy) + cx in
  let b0 := sa in
  let b1 := ca in
  let b2 := (- sa * dx) - (sa * cx) - (ca * dy) - (ca * cy) + cy in
  (a0, a1, a2, b0, b1, b2).

Definition affine_matrix_for_crop (state : TransformState) (size : nat * nat)
    (out_x0 out_y0 : Z) : Matrix :=
  let '(a0, a1, a2, b0, b1, b2) := affine_matrix_for_state state size in
  let a2 := a2 + a0 * inject_Z out_x0 + a1 * inject_Z out_y0 in
  let b2 := b2 + b0 * inject_Z out_x0 + b1 * inject_Z out_y0 in
  (a0, a1, a2, b0, b1, b2).
End Affine.

Module App.

(** The fields of the application object that loading and saving read or
    write; widgets and display caches are left out. *)
Record App : Type := mkApp {
  channels : list Image;
  transforms : list TransformState;
  reference_index : nat;
  active_index : nat;
  last_save_path : option string;
  source_paths : list string;
  tiffinfo : option Directory;
  save_kwargs : option Kwargs;
  resample_method : Resample        (* what [_resample_method()] returns *)
}.

(** What the user gets to see, and the library calls that write. *)
Inductive Event : Type :=
  | ShowError (title msg : string)       (* [messagebox.showerror] *)
  | RenderEmptyState
  | RefreshDisplay
  | SetStatus (msg : string)
  | SaveChannels (path : string).        (* a call of [save_channels] *)

Definition _has_channels (app : App) : bool :=
  negb (bool_decide (channels app = [])).

Definition load_images (w : World) (app : App) (paths : list string) : App * list Event :=
  match load_channels_from_paths w paths with
  | inl exc => (app, [ShowError "Load failed" (exn_str exc); RenderEmptyState])
  | inr stack =>
      if (length (Core.channels stack) <? 2)%nat
      then (app, [ShowError "Load failed" "Provide at least two channels to align.";
                  RenderEmptyState])
      else
        (mkApp (Core.channels stack)
               ((fun _ => identity_state) <$> Core.channels stack)
               0 1 None
               (Core.source_paths stack) (Core.tiffinfo stack) (Core.save_kwargs stack)
               (resample_method app),
         [RefreshDisplay; SetStatus "Images loaded. Use arrow keys to align."])
  end.

Definition _is_output_conflict (w : World) (app : App) (output_path : string) : bool :=
  let output_abs := abspath w output_path in
  existsb (fun src => String.eqb (abspath w src) output_abs) (source_paths app).

(** How the save dialog loop ends. *)
Inductive Asked : Type :=
  | Cancelled                  (* the dialog was dismissed *)
  | Chosen (path : string)     (* the loop was left with this destination *)
  | Waiting.                   (* the dialog is open and no answer is left *)

(** The [while True] loop of [_save_aligned]; [answers] are the successive
    results of [filedialog.asksaveasfilename]. *)
Fixpoint ask_output_path (w : World) (app : App) (answers : list string)
    : list Event * Asked :=
  match answers with
  | [] => ([], Waiting)
  | output_path :: rest =>
      if String.eqb output_path "" then ([], Cancelled)
      else if _is_output_conflict w app output_path then
        let '(evs, r) := ask_output_path w app rest in
        (ShowError "Save failed"
           "Pick a new filename. Original images are never overwritten." :: evs, r)
      else if path_exists w output_path then
        let '(evs, r) := ask_output_path w app rest in
        (ShowError "Save failed"
           "File already exists. Choose a new name to avoid overwriting." :: evs, r)
      else ([], Chosen output_path)
  end.

Section Save.
Context `{Runtime}.

Definition aligned_channels (app : App) : result (list Image) :=
  mapM_result (fun '(idx, channel) =>
      if (idx =? reference_index app)%nat then inr (copy channel)
      else match transforms app !! idx with
           | Some state => inr (apply_transform channel state (resample_method app))
           | None => inl (IndexError "list index out of range")
           end)
    (imap pair (channels app)).

Definition _save_aligned (w : World) (app : App) (answers : list string)
    : World * App * list Event :=
  if negb (_has_channels app) then (w, app, [])
  else
    let '(evs, asked) := ask_output_path w app answers in
    match asked with
    | Cancelled | Waiting => (w, app, evs)
    | Chosen output_path =>
        let saved : result World :=
          aligned ← aligned_channels app;
          let tiffinfo := add_alignment_tag (tiffinfo app) default_tag_text in
          save_channels w aligned output_path (Some tiffinfo) (save_kwargs app) in
        let called :=
          match aligned_channels app with
          | inr _ => [SaveChannels output_path]
          | inl _ => []
          end in
        match saved with
        | inl exc => (w, app, evs ++ called ++ [ShowError "Save failed" (exn_str exc)])
        | inr w' =>
            (w',
             mkApp (channels app) (transforms app) (reference_index app)
                   (active_index app) (Some output_path) (source_paths app)
                   (tiffinfo app) (save_kwargs app) (resample_method app),
             evs ++ called ++
             [SetStatus ("Saved aligned stack (Manual Aligned tag): "
                         +:+ basename w output_path)])
        end
    end.
End Save.

End App.

(** A destination the save dialog must turn down: it names a source file
    or something that exists. *)
Definition refused (w : World) (app : App.App) (p : string) : Prop :=
  App._is_output_conflict w app p = true \/ path_exists w p = true.

(** The error box of a refused or failed save. *)
Definition save_failed (e : App.Event) : Prop :=
  exists msg, e = App.ShowError "Save failed" msg.

(** ** More of [app.py]: region rendering, viewport, zoom, display range *)

Section Region.
Context `{Runtime}.

End Region.

(** [math.ceil] *)
Definition py_ceil (v : Q) : Z := Qceiling v.


(** The fraction [_center_view] scrolls one axis to. *)
Definition center_fraction (scroll canvas : Z) : Q :=
  if (scroll <=? canvas)%Z then 0
  else
    let x0 := py_max (inject_Z (scroll - canvas) / 2) 0 in
    x0 / inject_Z scroll.

(** [ManualChannelAlignerApp._center_view]: the fractions handed to
    [xview_moveto] and [yview_moveto]; [None] when it returns at once. *)
Definition _center_view (scroll_w scroll_h canvas_w canvas_h : Z) : option (Q * Q) :=
  if ((scroll_w <=? 0)%Z || (scroll_h <=? 0)%Z)%bool then None
  else Some (center_fraction scroll_w canvas_w, center_fraction scroll_h canvas_h).

(** [ManualChannelAlignerApp._pan_by_pixels]: the new start fraction of
    each axis, [None] for an axis that is not moved. *)
Definition _pan_by_pixels (scroll_w scroll_h canvas_w canvas_h : Z)
    (x_start y_start : Q) (dx dy : Z) : option Q * option Q :=
  if ((scroll_w <=? 0)%Z || (scroll_h <=? 0)%Z)%bool then (None, None)
  else
    let move (scroll canvas : Z) (start : Q) (d : Z) : option Q :=
      if (canvas <? scroll)%Z then
        let max_start := py_max 0 (1 - inject_Z canvas / inject_Z scroll) in
        Some (py_min (py_max (start + inject_Z d / inject_Z scroll) 0) max_start)
      else None in
    (move scroll_w canvas_w x_start dx, move scroll_h canvas_h y_start dy).

(** [UiTokens]: the zoom limits and step. *)
Definition zoom_min : Q := 1 # 10.
Definition zoom_max : Q := 32.
Definition zoom_step : Q := 25 # 100.

(** [ManualChannelAlignerApp._clamp_zoom], on the value of the zoom
    variable. *)
Definition _clamp_zoom (value : Q) : Q :=
  py_max zoom_min (py_min zoom_max value).

(** The zoom controls: each sets the zoom variable and then runs
    [_on_zoom_slider], which clamps it. *)
Inductive ZoomOp : Type :=
  | ZoomIn                 (* [_zoom_in] *)
  | ZoomOut                (* [_zoom_out] *)
  | ZoomFit                (* [_zoom_fit] *)
  | ZoomSlider (v : Q).    (* the slider moved to [v] *)

Definition zoom_op (op : ZoomOp) (zoom : Q) : Q :=
  match op with
  | ZoomIn => _clamp_zoom (zoom + zoom_step)
  | ZoomOut => _clamp_zoom (zoom - zoom_step)
  | ZoomFit => _clamp_zoom 1
  | ZoomSlider v => _clamp_zoom v
  end.

(** [ManualChannelAlignerApp._safe_float]: [var] is the number the Tk
    variable holds, [None] when reading it raises [TclError]. *)
Definition _safe_float (var : option Q) (fallback : Q) (allow_zero : bool) : Q :=
  match var with
  | None => fallback
  | Some value =>
      if (Qeq_bool value 0 && negb allow_zero)%bool then fallback else value
  end.

(** [ManualChannelAlignerApp._display_range] *)
Definition _display_range (auto_levels : bool) (display_min display_max : option Q)
    : option (Q * Q) :=
  if auto_levels then None
  else
    let min_val := _safe_float display_min 0 true in
    let max_val := _safe_float display_max 255 true in
    if Qle_bool max_val min_val then None else Some (min_val, max_val).

(** The value the nested [mapper] of [_apply_display_levels] gives a
    sample (for a range with [min_val < max_val]). *)
Definition level_mapper (min_val max_val : Q) (v : Q) : Z :=
  let scale := 255 / (max_val - min_val) in
  if Qle_bool v min_val then 0%Z
  else if Qle_bool max_val v then 255%Z
  else py_int ((v - min_val) * scale).

(** Samples of an 8-bit image: whole numbers from 0 to 255. *)
Definition eight_bit_sample (v : Q) : bool :=
  (Qden v =? 1)%positive && (0 <=? Qnum v)%Z && (Qnum v <=? 255)%Z.

Definition eight_bit (im : Image) : bool :=
  forallb (fun p => forallb (forallb eight_bit_sample) p) (bands im).

(** ** More of [app.py]: the alignment controls *)






Definition with_transforms (app : App.App) (transforms : list TransformState) : App.App :=
  App.mkApp (App.channels app) transforms (App.reference_index app)
    (App.active_index app) (App.last_save_path app) (App.source_paths app)
    (App.tiffinfo app) (App.save_kwargs app) (App.resample_method app).






Definition _reset_all (app : App.App) : App.App :=
  if negb (App._has_channels app) then app
  else with_transforms app ((fun _ => identity_state) <$> App.transforms app).






(** A loaded session: at least two channels, a transform for each, and a
    reference and an active channel that exist and differ. *)
Definition ready (app : App.App) : Prop :=
  (2 <= length (App.channels app))%nat /\
  length (App.transforms app) = length (App.channels app) /\
  (App.reference_index app < length (App.channels app))%nat /\
  (App.active_index app < length (App.channels app))%nat /\
  App.active_index app <> App.reference_index app.


(** ** Text helpers

    Characters are taken with codes below 256. *)
Module Text.

(** [str.isspace] on one character. *)
Definition isspace (c : ascii) : bool :=
  let n := nat_of_ascii c in
  ((9 <=? n) && (n <=? 13) || (28 <=? n) && (n <=? 32) || (n =? 133) || (n =? 160))%nat.

(** The digits of a pattern. *)
Definition isdigit (c : ascii) : bool :=
  let n := nat_of_ascii c in ((48 <=? n) && (n <=? 57))%nat.

Fixpoint all_chars (p : ascii -> bool) (s : string) : bool :=
  match s with
  | EmptyString => true
  | String c r => p c && all_chars p r
  end.

Fixpoint lstrip (p : ascii -> bool) (s : string) : string :=
  match s with
  | EmptyString => EmptyString
  | String c r => if p c then lstrip p r else s
  end.

Fixpoint rstrip (p : ascii -> bool) (s : string) : string :=
  match s with
  | EmptyString => EmptyString
  | String c r =>
      let r' := rstrip p r in
      if (String.eqb r' "" && p c)%bool then EmptyString else String c r'
  end.

(** [s.strip()] *)
Definition strip (s : string) : string := rstrip isspace (lstrip isspace s).

(** [s.strip(chars)] *)
Definition strip_chars (chars : list ascii) (s : string) : string :=
  let p c := existsb (Ascii.eqb c) chars in rstrip p (lstrip p s).

(** The longest prefix of characters satisfying [p], and what follows. *)
Fixpoint span (p : ascii -> bool) (s : string) : string * string :=
  match s with
  | EmptyString => (EmptyString, EmptyString)
  | String c r =>
      if p c then let '(a, b) := span p r in (String c a, b) else (EmptyString, s)
  end.

(** What [s] starts with, if anything, fails [p]. *)
Definition stops (p : ascii -> bool) (s : string) : Prop :=
  match s with
  | EmptyString => True
  | String c _ => p c = false
  end.

(** [int(s)] on a string of decimal digits, left to right from [acc]. *)
Fixpoint int_digits (acc : Z) (s : string) : Z :=
  match s with
  | EmptyString => acc
  | String c r => int_digits (10 * acc + Z.of_nat (nat_of_ascii c - 48)) r
  end.

(** A literal character of a pattern. *)
Definition expect (c : ascii) (s : string) : option string :=
  match s with
  | String c' r => if Ascii.eqb c c' then Some r else None
  | EmptyString => None
  end.

(** A group of one or more digits, and [int] of it. *)
Definition number (s : string) : option (Z * string) :=
  let '(d, r) := span isdigit s in
  if String.eqb d "" then None else Some (int_digits 0 d, r).

(** A group of an optional minus sign and one or more digits, and [int]
    of it. *)
Definition signed_number (s : string) : option (Z * string) :=
  match expect "-" s with
  | Some r =>
      match number r with
      | Some (n, r') => Some ((- n)%Z, r')
      | None => None
      end
  | None => number s
  end.

(** The end anchor of a pattern: the end of the string, or just before
    a final newline. *)
Definition at_end (s : string) : bool :=
  (String.eqb s "" || String.eqb s (String "010" ""))%bool.

End Text.
Export Text.

(** ** [screenshot_utils.py] *)

(** [GEOMETRY_RE.match], with the four groups already through [int]. *)
Definition GEOMETRY_RE_match (s : string) : option (Z * Z * Z * Z) :=
  '(width, s) ← number s;
  s ← expect "x" s;
  '(height, s) ← number s;
  s ← expect "+" s;
  '(x, s) ← signed_number s;
  s ← expect "+" s;
  '(y, s) ← signed_number s;
  if at_end s then Some (width, height, x, y) else None.

Definition parse_geometry (geometry : string) : result (Z * Z * Z * Z) :=
  match GEOMETRY_RE_match (strip geometry) with
  | None => inl (ValueError ("Invalid geometry: " +:+ geometry))
  | Some groups => inr groups
  end.

Definition window_bbox (x y width height : Z) : result (Z * Z * Z * Z) :=
  if ((width <=? 0)%Z || (height <=? 0)%Z)%bool
  then inl (ValueError "Window size must be positive.")
  else inr (x, y, (x + width)%Z, (y + height)%Z).

(** The text [main] of [scripts/capture_screenshots.py] hands to
    [root.geometry]: width, x, height, +, x, +, y, the numbers in
    decimal. *)
Definition geometry_text (width height x y : Z) : string :=
  pretty width +:+ "x" +:+ pretty height +:+ "+" +:+ pretty x +:+ "+" +:+ pretty y.

(** ** Dropped files ([app.py]) *)

Section Drop.
(** [unquote(urlparse(value).path)] of a [file://] URL, and whether
    [os.name] is nt. *)
Variable url_path : string -> string.
Variable os_nt : bool.

Definition normalize_drop_path (value : string) : string :=
  if String.prefix "file://" value then
    let value := url_path value in
    if (os_nt && String.prefix "/" value)%bool
    then String.substring 1 (String.length value - 1) value
    else value
  else value.

(** A match of the first alternative at the start of [s]: an opening
    brace, one or more characters other than a closing brace, a closing
    brace.  Gives the match and the rest. *)
Definition braced_token (s : string) : option (string * string) :=
  match expect "{" s with
  | Some r =>
      let '(body, r') := span (fun c => negb (Ascii.eqb c "}")) r in
      match expect "}" r' with
      | Some rest =>
          if String.eqb body "" then None
          else Some (String "{" (body +:+ "}"), rest)
      | None => None
      end
  | None => None
  end.

(** The character class of the second alternative of the token pattern:
    every character but the backslash (code 92) and the letter s. *)
Definition plain_char (c : ascii) : bool :=
  negb (Ascii.eqb c "092") && negb (Ascii.eqb c "s").

(** A character that is neither a brace nor left out of the class. *)
Definition outside_braces (c : ascii) : bool :=
  plain_char c && negb (Ascii.eqb c "{") && negb (Ascii.eqb c "}").

Definition not_brace (c : ascii) : bool :=
  negb (Ascii.eqb c "{") && negb (Ascii.eqb c "}").

Definition plain_token (s : string) : option (string * string) :=
  let '(tok, rest) := span plain_char s in
  if String.eqb tok "" then None else Some (tok, rest).

(** [re.findall] with the token pattern of [parse_drop_files] (a braced
    group, or else a run of plain characters): the matches from left to
    right; where neither alternative matches, the scan moves on by one
    character.  A match is never empty, so [fuel] = the length of [s] is
    enough. *)
Fixpoint findall_tokens (fuel : nat) (s : string) : list string :=
  match fuel with
  | O => []
  | S fuel =>
      match s with
      | EmptyString => []
      | String _ r =>
          match braced_token s with
          | Some (tok, rest) => tok :: findall_tokens fuel rest
          | None =>
              match plain_token s with
              | Some (tok, rest) => tok :: findall_tokens fuel rest
              | None => findall_tokens fuel r
              end
          end
      end
  end.

Definition parse_drop_files (data : string) : list string :=
  if String.eqb data "" then []
  else
    let tokens := findall_tokens (String.length data) data in
    let paths :=
      (fun token => normalize_drop_path (strip_chars ["{"; "}"]%char (strip token)))
        <$> tokens in
    filter (fun p => p <> "") paths.
End Drop.

(** ** Sample data *)

(** A runtime for evaluating the definitions on examples: exact cosine and
    sine at the quarter turns.  The examples resample with [NEAREST] and
    stay in mode L, so the interpolating kernels and the conversion band
    given here are never consulted. *)
Definition quarter_cos (a : Q) : Q :=
  if Qeq_bool a 90 then 0 else if Qeq_bool a 180 then -1
  else if Qeq_bool a 270 then 0 else 1.

Definition quarter_sin (a : Q) : Q :=
  if Qeq_bool a 90 then 1 else if Qeq_bool a 180 then 0
  else if Qeq_bool a 270 then -1 else 0.

Definition sample_runtime : Runtime :=
  Build_Runtime quarter_cos quarter_sin nearest_filter nearest_filter
    (fun im => default [] (head (bands im))).

(** A 5 x 5 image, black but for one white pixel at (2, 2). *)
Definition dot_image : Image :=
  mkImage "L" (5, 5)%nat
    [ [ [0; 0; 0; 0; 0]; [0; 0; 0; 0; 0]; [0; 0; 255; 0; 0];
        [0; 0; 0; 0; 0]; [0; 0; 0; 0; 0] ] ].

(** A 4 x 2 image with eight different samples. *)
Definition wide_image : Image :=
  mkImage "L" (4, 2)%nat [ [ [1; 2; 3; 4]; [5; 6; 7; 8] ] ].

(** A quarter turn followed by a move one pixel down. *)
Definition turn_and_move : TransformState := mkTransformState 0 1 90.

(** A 2 x 1 image whose samples span 10 .. 20. *)
Definition dim_image : Image := mkImage "L" (2, 1)%nat [ [ [10; 20] ] ].

(** A directory whose description carries the marker twice already. *)
Definition marked_twice : Directory :=
  {[ 270%Z := TagText "Manual Aligned Manual Aligned" ]}.

(** A directory with a description that does not mention the alignment. *)
Definition plain_directory : Directory :=
  {[ 270%Z := TagText "original"; 256%Z := TagInt 3 ]}.

(** A world in which relative and absolute paths coincide and every
    write succeeds. *)
Definition plain_world (fs : gmap string FsEntry) : World :=
  mkWorld fs (fun p => p) (fun p => p) (fun _ => true).

Definition single_band_file : ImageFile := mkImageFile dim_image [] None ∅.

(** One single-band, single-frame image file. *)
Definition lonely_world : World :=
  plain_world {[ "a.png" := ImageEntry single_band_file ]}.

(** A file with two frames, and a world that holds it. *)
Definition paged_file : ImageFile := mkImageFile dim_image [dim_image] None ∅.

Definition paged_world : World :=
  plain_world {[ "stack.tif" := ImageEntry paged_file ]}.

(** Two files whose images differ in size. *)
Definition wide_file : ImageFile := mkImageFile wide_image [] None ∅.

Definition uneven_world : World :=
  plain_world {[ "a.png" := ImageEntry single_band_file;
                 "b.png" := ImageEntry wide_file ]}.

(** A file that records a resolution and an empty compression name. *)
Definition profiled_file : ImageFile :=
  mkImageFile dim_image [] None
    {[ "dpi" := InfoPair 300 300; "compression" := InfoText "" ]}.

(** The application before anything is loaded. *)
Definition fresh_app : App.App :=
  App.mkApp [] [] 0 1 None [] None None BILINEAR.

(** Two channels loaded from two files. *)
Definition two_channel_app : App.App :=
  App.mkApp [dim_image; dim_image] [identity_state; identity_state] 0 1 None
    ["a.png"; "b.png"] None None NEAREST.

Definition two_file_world : World :=
  plain_world {[ "a.png" := ImageEntry single_band_file;
                 "b.png" := ImageEntry single_band_file;
                 "old.tif" := OtherEntry ]}.

(** * Part II: properties *)

(** ** Facts about the numeric helpers *)

Lemma Qltb_lt a b : Qltb a b = true <-> a < b.
Proof.
  unfold Qltb. rewrite negb_true_iff.
  destruct (Qle_bool b a) eqn:E.
  - apply Qle_bool_iff in E. split; [discriminate|].
    intros Hlt. exfalso. exact (Qlt_not_le _ _ Hlt E).
  - split; [intros _|reflexivity].
    apply Qnot_le_lt. intros Hle. apply Qle_bool_iff in Hle. congruence.
Qed.

Lemma Qltb_ge a b : Qltb a b = false <-> b <= a.
Proof.
  unfold Qltb. rewrite negb_false_iff. apply Qle_bool_iff.
Qed.

Lemma py_max_cases a b :
  (a < b /\ py_max a b = b) \/ (b <= a /\ py_max a b = a).
Proof.
  unfold py_max. destruct (Qltb a b) eqn:E.
  - left. split; [by apply Qltb_lt|done].
  - right. split; [by apply Qltb_ge|done].
Qed.

Lemma py_min_cases a b :
  (b < a /\ py_min a b = b) \/ (a <= b /\ py_min a b = a).
Proof.
  unfold py_min. destruct (Qltb b a) eqn:E.
  - left. split; [by apply Qltb_lt|done].
  - right. split; [by apply Qltb_ge|done].
Qed.

Lemma py_max_Qmax a b : py_max a b == Qmax a b.
Proof.
  destruct (py_max_cases a b) as [[Hab ->]|[Hab ->]].
  - symmetry. apply Q.max_r. by apply Qlt_le_weak.
  - symmetry. by apply Q.max_l.
Qed.

Lemma py_max_zero_nonneg b : 0 <= py_max 0 b.
Proof.
  destruct (py_max_cases 0 b) as [[Hb ->]|[Hb ->]].
  - by apply Qlt_le_weak.
  - apply Qle_refl.
Qed.

Lemma truthy_inject_Z (n : Z) : truthy (inject_Z n) = negb (n =? 0)%Z.
Proof.
  unfold truthy, Qeq_bool, inject_Z. simpl. f_equal.
  rewrite Z.mul_1_r. reflexivity.
Qed.

Lemma Qfloor_unique (q : Q) (n : Z) :
  inject_Z n <= q -> q < inject_Z n + 1 -> Qfloor q = n.
Proof.
  intros Hlo Hhi.
  pose proof (Qfloor_le q) as Hfl. pose proof (Qlt_floor q) as Hlt.
  rewrite inject_Z_plus in Hlt. change (inject_Z 1) with 1 in Hlt.
  assert (inject_Z (Qfloor q) < inject_Z n + 1) as Hup by lra.
  assert (inject_Z n < inject_Z (Qfloor q) + 1) as Hdn by lra.
  change 1 with (inject_Z 1) in Hup, Hdn.
  rewrite <- inject_Z_plus, <- Zlt_Qlt in Hup, Hdn. lia.
Qed.

(** The cell of a pixel centre shifted by a whole number of pixels. *)
Lemma Qfloor_centre (n : Z) : Qfloor (inject_Z n + (1 # 2)) = n.
Proof.
  unfold Qfloor, Qplus, inject_Z. simpl.
  rewrite Z.mul_1_r. symmetry. apply Z.div_unique with (r := 1%Z); lia.
Qed.

Lemma Qfloor_shifted_centre (x y t : Z) :
  Qfloor (1 * (inject_Z x + (1 # 2)) + 0 * (inject_Z y + (1 # 2)) + - inject_Z t)
  = (x - t)%Z.
Proof.
  rewrite <- (Qfloor_centre (x - t)). apply Qfloor_comp.
  unfold Z.sub. rewrite inject_Z_plus, inject_Z_opp. ring.
Qed.

Lemma Qfloor_shifted_centre' (x y t : Z) :
  Qfloor (0 * (inject_Z x + (1 # 2)) + 1 * (inject_Z y + (1 # 2)) + - inject_Z t)
  = (y - t)%Z.
Proof.
  rewrite <- (Qfloor_centre (y - t)). apply Qfloor_comp.
  unfold Z.sub. rewrite inject_Z_plus, inject_Z_opp. ring.
Qed.

(** ** Scroll clamping *)

Section Clamp.
Variables scroll_w canvas_w : Q.
Hypothesis scroll_pos : 0 < scroll_w.

Lemma clamp_unfold value :
  clamp_scroll_fraction value scroll_w canvas_w
  = py_min (py_max value 0) (max_scroll_start scroll_w canvas_w).
Proof using scroll_pos.
  unfold clamp_scroll_fraction.
  destruct (Qle_bool scroll_w 0) eqn:E; [|done].
  apply Qle_bool_iff in E. exfalso. exact (Qlt_not_le _ _ scroll_pos E).
Qed.

Lemma clamp_lower value :
  0 <= clamp_scroll_fraction value scroll_w canvas_w.
Proof using scroll_pos.
  rewrite clamp_unfold.
  pose proof (py_max_zero_nonneg (1 - canvas_w / scroll_w)) as Hms.
  fold (max_scroll_start scroll_w canvas_w) in Hms.
  destruct (py_min_cases (py_max value 0) (max_scroll_start scroll_w canvas_w)) as [[_ ->]|[_ ->]]; [done|].
  destruct (py_max_cases value 0) as [[Hv ->]|[Hv ->]]; [apply Qle_refl|done].
Qed.

Lemma clamp_upper value :
  clamp_scroll_fraction value scroll_w canvas_w <= (max_scroll_start scroll_w canvas_w).
Proof using scroll_pos.
  rewrite clamp_unfold.
  destruct (py_min_cases (py_max value 0) (max_scroll_start scroll_w canvas_w)) as [[_ ->]|[Hle ->]];
    [apply Qle_refl|done].
Qed.

Lemma clamp_fixed value :
  0 <= value -> value <= (max_scroll_start scroll_w canvas_w) ->
  clamp_scroll_fraction value scroll_w canvas_w = value.
Proof using scroll_pos.
  intros H0 H1. rewrite clamp_unfold.
  assert (py_max value 0 = value) as ->.
  { destruct (py_max_cases value 0) as [[Hlt _]|[_ ->]]; [|done].
    exfalso. exact (Qlt_not_le _ _ Hlt H0). }
  destruct (py_min_cases value (max_scroll_start scroll_w canvas_w)) as [[Hlt _]|[_ ->]]; [|done].
  exfalso. exact (Qlt_not_le _ _ Hlt H1).
Qed.
End Clamp.

(** C8. For a positive scroll width the clamped fraction lies between 0 and
    [max(0, 1 - canvas_w / scroll_w)], and clamping a second time with the
    same widths returns the very same value. *)
Theorem clamp_scroll_fraction_range_idempotent (f scroll_w canvas_w : Q) :
  0 < scroll_w ->
  let r := clamp_scroll_fraction f scroll_w canvas_w in
  0 <= r /\ r <= Qmax 0 (1 - canvas_w / scroll_w) /\
  clamp_scroll_fraction r scroll_w canvas_w = r.
Proof.
  intros Hpos r. subst r. split; [|split].
  - by apply clamp_lower.
  - rewrite <- py_max_Qmax. by apply clamp_upper.
  - apply clamp_fixed; [done|by apply clamp_lower|by apply clamp_upper].
Qed.

Lemma clamp_scroll_fraction_range_idempotent_witness :
  0 < 200 /\
  (0 <= clamp_scroll_fraction (8 # 10) 200 100 /\
   clamp_scroll_fraction (8 # 10) 200 100 <= Qmax 0 (1 - 100 / 200) /\
   clamp_scroll_fraction (clamp_scroll_fraction (8 # 10) 200 100) 200 100
   = clamp_scroll_fraction (8 # 10) 200 100).
Proof.
  split; [reflexivity|].
  apply (clamp_scroll_fraction_range_idempotent (8 # 10) 200 100). reflexivity.
Defined.

(** ** Reading pixels *)

Lemma mapM_pointwise {A B : Type} (f : A -> option B) (g : A -> B) (l : list A) :
  (forall a, a ∈ l -> f a = Some (g a)) -> mapM f l = Some (g <$> l).
Proof.
  intros Hf. apply mapM_Some, Forall2_fmap_r.
  apply Forall_Forall2_diag, Forall_forall. intros a Ha. by apply Hf.
Qed.

Lemma mapM_fmap_pointwise {A B C : Type} (f : B -> option C) (g : A -> B)
    (h : A -> C) (l : list A) :
  (forall a, f (g a) = Some (h a)) -> mapM f (g <$> l) = Some (h <$> l).
Proof.
  intros Hf. apply mapM_Some, Forall2_fmap.
  apply Forall_Forall2_diag, Forall_forall. intros a _. apply Hf.
Qed.

Lemma plane_get_inside sz p x y :
  in_bounds sz x y ->
  plane_get sz p x y = (p : list (list Q)) !! Z.to_nat y ≫= (fun row => row !! Z.to_nat x).
Proof.
  intros [[Hx0 Hx1] [Hy0 Hy1]]. unfold plane_get.
  apply Z.leb_le in Hx0, Hy0. apply Z.ltb_lt in Hx1, Hy1.
  by rewrite Hx0, Hx1, Hy0, Hy1.
Qed.

Lemma plane_get_outside sz p x y :
  ~ in_bounds sz x y -> plane_get sz p x y = None.
Proof.
  intros Hout. unfold plane_get.
  destruct (0 <=? x)%Z eqn:Hx0; [|done].
  destruct (x <? Z.of_nat (fst sz))%Z eqn:Hx1; [|done].
  destruct (0 <=? y)%Z eqn:Hy0; [|done].
  destruct (y <? Z.of_nat (snd sz))%Z eqn:Hy1; [|done].
  exfalso. apply Hout. unfold in_bounds. lia.
Qed.

Lemma plane_get_tabulate sz f x y :
  in_bounds sz x y ->
  plane_get sz (tabulate sz f) x y = Some (f (Z.to_nat x) (Z.to_nat y)).
Proof.
  intros Hin. rewrite plane_get_inside by done.
  destruct Hin as [Hx Hy]. unfold tabulate.
  rewrite list_lookup_fmap, lookup_seq_lt by lia. simpl.
  rewrite list_lookup_fmap, lookup_seq_lt by lia. done.
Qed.

Lemma wf_plane_get sz p x y :
  wf_plane sz p = true -> in_bounds sz x y -> is_Some (plane_get sz p x y).
Proof.
  intros Hwf Hin. rewrite plane_get_inside by done.
  destruct Hin as [Hx Hy]. unfold wf_plane in Hwf.
  apply andb_true_iff in Hwf as [Hlen Hrows].
  apply Nat.eqb_eq in Hlen.
  destruct (lookup_lt_is_Some_2 (p : list (list Q)) (Z.to_nat y)) as [row Hrow]; [lia|].
  rewrite Hrow. simpl.
  rewrite forallb_forall in Hrows.
  assert (length row = fst sz) as Hw.
  { apply Nat.eqb_eq, Hrows. apply list_elem_of_In.
    by apply list_elem_of_lookup_2 with (Z.to_nat y). }
  apply lookup_lt_is_Some_2. lia.
Qed.

Lemma getpixel_wf im x y :
  wf_image im = true -> in_bounds (size im) x y ->
  getpixel im x y
  = Some ((fun p => default 0 (plane_get (size im) p x y)) <$> bands im).
Proof.
  intros Hwf Hin. unfold getpixel. apply mapM_pointwise.
  intros p Hp. unfold wf_image in Hwf. rewrite forallb_forall in Hwf.
  destruct (wf_plane_get (size im) p x y) as [v Hv]; [|done|].
  - apply Hwf. by apply list_elem_of_In.
  - by rewrite Hv.
Qed.

Lemma getpixel_crop im x0 y0 w h x y :
  in_bounds (w, h) x y ->
  getpixel (crop im x0 y0 w h) x y
  = Some ((fun p => default 0 (plane_get (size im) p (x0 + x) (y0 + y)))
          <$> bands im).
Proof.
  intros Hin. unfold getpixel, crop. simpl.
  apply mapM_fmap_pointwise. intros p.
  rewrite plane_get_tabulate by done. destruct Hin as [Hx Hy]. simpl in Hx, Hy.
  by rewrite !Z2Nat.id by lia.
Qed.

Section PixelsOfTransform.
Context `{Runtime}.

Lemma getpixel_transform im out_size data r fill x y :
  in_bounds out_size x y ->
  getpixel (transform im out_size data r fill) x y
  = Some ((fun p =>
             let '(xin, yin) := affine_point data (Z.to_nat x) (Z.to_nat y) in
             default fill (sample r (size im) p xin yin)) <$> bands im).
Proof.
  intros Hin. unfold getpixel, transform. simpl.
  apply mapM_fmap_pointwise. intros p.
  by rewrite plane_get_tabulate.
Qed.
End PixelsOfTransform.

(** ** The transform engine *)

Section Transform.
Context `{Runtime}.

Lemma apply_transform_no_motion image state resample :
  truthy (angle_deg state) = false ->
  truthy (dx state) = false -> truthy (dy state) = false ->
  apply_transform image state resample = copy image.
Proof.
  intros Ha Hx Hy. unfold apply_transform. by rewrite Ha, Hx, Hy.
Qed.

Lemma apply_transform_translation image state resample :
  truthy (angle_deg state) = false ->
  (truthy (dx state) || truthy (dy state))%bool = true ->
  apply_transform image state resample
  = transform image (size image) (1, 0, - dx state, 0, 1, - dy state) resample 0.
Proof.
  intros Ha Hxy. unfold apply_transform. by rewrite Ha, Hxy.
Qed.

(** A whole-pixel translation with nearest-neighbour resampling reads
    every destination pixel at the source pixel [(-tx, -ty)] away, and
    leaves 0 where there is none. *)
Lemma translated_pixel image (tx ty : Z) x y :
  wf_image image = true ->
  in_bounds (size image) x y ->
  getpixel (apply_transform image
              (mkTransformState (inject_Z tx) (inject_Z ty) 0) NEAREST) x y
  = Some ((fun p => default 0 (plane_get (size image) p (x - tx) (y - ty)))
          <$> bands image).
Proof.
  intros Hwf Hin.
  destruct (truthy (inject_Z tx) || truthy (inject_Z ty))%bool eqn:Hmove.
  - rewrite apply_transform_translation by done.
    rewrite getpixel_transform by done.
    f_equal. apply list_fmap_ext. intros _ p _.
    destruct Hin as [Hx Hy]. unfold affine_point. simpl.
    unfold nearest_filter. rewrite !Z2Nat.id by lia.
    by rewrite Qfloor_shifted_centre, Qfloor_shifted_centre'.
  - apply orb_false_iff in Hmove as [Hx Hy].
    rewrite apply_transform_no_motion by done.
    rewrite truthy_inject_Z in Hx, Hy.
    apply negb_false_iff, Z.eqb_eq in Hx, Hy. subst tx ty.
    rewrite !Z.sub_0_r. by apply getpixel_wf.
Qed.

Lemma apply_transform_size image state resample :
  size (apply_transform image state resample) = size image.
Proof.
  unfold apply_transform.
  destruct (truthy (angle_deg state)); destruct (truthy (dx state) || truthy (dy state))%bool;
    reflexivity.
Qed.
End Transform.

(** C2. With the identity state (no translation, no rotation) and any
    resampling filter, [apply_transform] returns a copy of its input: the
    same mode and size and, pixel for pixel, the same samples. *)
Theorem apply_transform_identity `{Runtime} (image : Image) (resample : Resample) :
  apply_transform image identity_state resample = copy image /\
  (getdata <$> bands (apply_transform image identity_state resample))
  = (getdata <$> bands image) /\
  forall x y,
    getpixel (apply_transform image identity_state resample) x y = getpixel image x y.
Proof.
  assert (apply_transform image identity_state resample = copy image) as ->
    by (by apply apply_transform_no_motion).
  done.
Qed.

(** C3. A translation by whole pixels [(tx, ty)] with no rotation and
    nearest-neighbour resampling keeps the image size, shows the sample of
    every source pixel [(x, y)] at [(x + tx, y + ty)] whenever that lies
    inside the image, and puts 0 in every band of each destination pixel
    whose source position [(x - tx, y - ty)] lies outside the image. *)
Theorem apply_transform_translation_nearest `{Runtime} (image : Image) (tx ty : Z) :
  wf_image image = true ->
  let out := apply_transform image
               (mkTransformState (inject_Z tx) (inject_Z ty) 0) NEAREST in
  size out = size image /\
  (forall x y,
     in_bounds (size image) x y -> in_bounds (size image) (x + tx) (y + ty) ->
     getpixel out (x + tx) (y + ty) = getpixel image x y) /\
  (forall x y,
     in_bounds (size image) x y -> ~ in_bounds (size image) (x - tx) (y - ty) ->
     getpixel out x y = Some ((fun _ => 0) <$> bands image)).
Proof.
  intros Hwf out. subst out. split; [apply apply_transform_size|]. split.
  - intros x y Hsrc Hdst. rewrite translated_pixel by done.
    rewrite getpixel_wf by done.
    by replace (x + tx - tx)%Z with x by lia; replace (y + ty - ty)%Z with y by lia.
  - intros x y Hdst Hsrc. rewrite translated_pixel by done.
    f_equal. apply list_fmap_ext. intros _ p _.
    by rewrite plane_get_outside.
Qed.

Lemma apply_transform_translation_nearest_witness :
  wf_image dot_image = true /\
  getpixel (apply_transform (H := sample_runtime) dot_image
              (mkTransformState 1 (-1) 0) NEAREST) 3 1 = Some [255].
Proof.
  split; [reflexivity|].
  destruct (apply_transform_translation_nearest (H := sample_runtime)
              dot_image 1 (-1) eq_refl) as (_ & Hmove & _).
  apply (Hmove 2 2)%Z; unfold in_bounds; simpl; lia.
Defined.

(** ** Rendering a region against cropping the full transform *)

Section Region.
Context `{Runtime}.







(** After the quarter turn the picture is moved one pixel down, so the
    top scanline of the full transform is empty whatever the rotation
    produced. *)
Lemma full_transform_top_row_empty :
  getpixel (crop (apply_transform wide_image turn_and_move NEAREST) 0 0 4 2) 1 0
  = Some [0].
Proof.
  rewrite getpixel_crop by (unfold in_bounds; simpl; lia).
  change (apply_transform wide_image turn_and_move NEAREST) with
    (transform (rotate (copy wide_image) 90 NEAREST 0) (4, 2)%nat
       (1, 0, - 0, 0, 1, - 1) NEAREST 0).
  cbn [bands transform rotate copy wide_image fmap list_fmap size].
  rewrite plane_get_tabulate by (unfold in_bounds; simpl; lia).
  cbv [affine_point]. cbn [sample]. unfold nearest_filter.
  rewrite plane_get_outside; [done|].
  intros [_ [Hy _]]. revert Hy. vm_compute. intros Hy. by apply Hy.
Qed.

(** The matrix of [affine_matrix_for_crop] composes turn and move into
    one map, which reaches the last column of the source. *)
Lemma region_top_row_from_source :
  -1 # 10 <= cos_deg 90 <= 1 # 10 -> 9 # 10 <= sin_deg 90 <= 11 # 10 ->
  getpixel (transform wide_image (4, 2)%nat
              (affine_matrix_for_crop turn_and_move (size wide_image) 0 0)
              NEAREST 0) 1 0
  = Some [4].
Proof.
  intros Hc Hs.
  rewrite getpixel_transform by (unfold in_bounds; simpl; lia).
  cbv [affine_matrix_for_crop affine_matrix_for_state affine_point turn_and_move
       angle_deg dx dy wide_image size bands fst snd Z.to_nat Pos.to_nat
       Pos.iter_op Nat.add Z.of_nat Pos.of_succ_nat Pos.succ].
  cbn [fmap list_fmap sample inject_Z]. unfold nearest_filter.
  set (ca := cos_deg 90) in *. set (sa := sin_deg 90) in *. clearbody ca sa.
  rewrite (Qfloor_unique _ 3), (Qfloor_unique _ 0); [reflexivity|..];
    destruct Hc, Hs; unfold inject_Z;
    change (4 / 2) with (4 * (1 # 2)); change (2 / 2) with (2 * (1 # 2)); lra.
Qed.
End Region.

(** C1 (the code departs from the claim). On the 4 x 2 image
    [wide_image], turned by 90 degrees and moved one pixel down, with
    nearest-neighbour resampling and the whole image as the rectangle:
    the pixel (1, 0) cropped from [apply_transform] is 0, the same pixel
    resampled with the matrix of [affine_matrix_for_crop] is the source
    sample 4.  This holds for every runtime whose cosine and sine of 90
    degrees are within a tenth of 0 and 1. *)
Theorem crop_region_differs_from_full_transform `{Runtime} :
  -1 # 10 <= cos_deg 90 <= 1 # 10 -> 9 # 10 <= sin_deg 90 <= 11 # 10 ->
  let full := apply_transform wide_image turn_and_move NEAREST in
  let region :=
    transform wide_image (4, 2)%nat
      (affine_matrix_for_crop turn_and_move (size wide_image) 0 0) NEAREST 0 in
  getpixel (crop full 0 0 4 2) 1 0 = Some [0] /\
  getpixel region 1 0 = Some [4] /\
  crop full 0 0 4 2 <> region.
Proof.
  intros Hc Hs full region.
  pose proof full_transform_top_row_empty as Hfull.
  pose proof (region_top_row_from_source Hc Hs) as Hregion.
  fold full in Hfull. fold region in Hregion.
  split; [done|]. split; [done|].
  intros Heq. rewrite Heq, Hregion in Hfull. discriminate.
Qed.

Lemma crop_region_differs_from_full_transform_witness :
  (-1 # 10 <= quarter_cos 90 <= 1 # 10) /\
  (9 # 10 <= quarter_sin 90 <= 11 # 10) /\
  crop (apply_transform (H := sample_runtime) wide_image turn_and_move NEAREST) 0 0 4 2
  <> transform (H := sample_runtime) wide_image (4, 2)%nat
       (affine_matrix_for_crop (H := sample_runtime) turn_and_move (size wide_image) 0 0)
       NEAREST 0.
Proof.
  assert (-1 # 10 <= quarter_cos 90 <= 1 # 10) as Hc by (split; discriminate).
  assert (9 # 10 <= quarter_sin 90 <= 11 # 10) as Hs by (split; discriminate).
  split; [exact Hc|]. split; [exact Hs|].
  exact (proj2 (proj2 (crop_region_differs_from_full_transform
                         (H := sample_runtime) Hc Hs))).
Defined.

(** ** Display levels *)

(** C4 (as stated, refuted). A manual range with [max_val <= min_val] does
    not give the auto-contrast picture: on the 2 x 1 image with samples 10
    and 20 the range (5, 5) returns the samples as they are, while auto
    mode stretches them to 0 and 255. *)
Lemma invalid_range_is_not_auto_contrast :
  ~ (forall (R : Runtime) (image : Image) (min_val max_val : Q),
       length (bands image) = 1%nat -> max_val <= min_val ->
       to_display_gray image (Some (min_val, max_val)) = to_display_gray image None).
Proof.
  intros Hclaim.
  specialize (Hclaim sample_runtime dim_image 5 5 eq_refl (Qle_refl 5)).
  vm_compute in Hclaim. discriminate.
Qed.

(** C4 (amended). A manual range with [max_val <= min_val] makes
    [to_display_gray] return [image.convert("L")]: the 8-bit conversion of
    the image with no contrast stretch, and a plain copy when the image is
    in mode L already. *)
Theorem invalid_range_converts_without_stretch `{Runtime}
    (image : Image) (min_val max_val : Q) :
  max_val <= min_val ->
  to_display_gray image (Some (min_val, max_val)) = convert_L image /\
  (mode image = "L" -> to_display_gray image (Some (min_val, max_val)) = copy image).
Proof.
  intros Hle.
  assert (to_display_gray image (Some (min_val, max_val)) = convert_L image) as ->.
  { unfold to_display_gray, _apply_display_levels.
    apply Qle_bool_iff in Hle. by rewrite Hle. }
  split; [done|]. intros Hmode. unfold convert_L. by rewrite Hmode.
Qed.

Lemma invalid_range_converts_without_stretch_witness :
  5 <= 5 /\
  to_display_gray (H := sample_runtime) dim_image (Some (5, 5)) = dim_image.
Proof.
  split; [apply Qle_refl|].
  exact (proj2 (invalid_range_converts_without_stretch (H := sample_runtime)
                  dim_image 5 5 (Qle_refl 5)) eq_refl).
Defined.

(** ** Loading *)

Lemma load_single_band_file (w : World) (path : string) (f : ImageFile) :
  files w !! path = Some (ImageEntry f) ->
  more_frames f = [] -> (length (bands (frame0 f)) <= 1)%nat ->
  exists stack,
    load_channels_from_paths w [path] = inr stack /\ channels stack = [frame0 f].
Proof.
  intros Hfile Hframes Hbands. unfold load_channels_from_paths. simpl.
  unfold image_open. rewrite Hfile. simpl.
  unfold n_frames. rewrite Hframes. simpl.
  destruct (1 <? length (bands (frame0 f)))%nat eqn:E.
  - apply Nat.ltb_lt in E. lia.
  - eexists. split; reflexivity.
Qed.

(** C5. Whenever loading does not yield at least two channels (the paths
    give a stack of fewer than two channels, or reading them raises),
    [load_images] reports "Load failed", shows the empty state and leaves
    the application as it was: no stack is taken over.  The check on the
    channel count is made by [load_images]; [load_channels_from_paths]
    itself returns the one-channel stack of a single single-band file. *)
Theorem load_images_needs_two_channels (w : World) (app : App.App) (paths : list string) :
  match load_channels_from_paths w paths with
  | inr stack => (length (channels stack) < 2)%nat
  | inl _ => True
  end ->
  exists msg,
    App.load_images w app paths
    = (app, [App.ShowError "Load failed" msg; App.RenderEmptyState]).
Proof.
  intros Hfew. unfold App.load_images.
  destruct (load_channels_from_paths w paths) as [exc|stack].
  - by eexists.
  - apply Nat.ltb_lt in Hfew. rewrite Hfew. by eexists.
Qed.

Lemma load_images_needs_two_channels_witness :
  (exists stack,
     load_channels_from_paths lonely_world ["a.png"] = inr stack /\
     channels stack = [dim_image]) /\
  exists msg,
    App.load_images lonely_world fresh_app ["a.png"]
    = (fresh_app, [App.ShowError "Load failed" msg; App.RenderEmptyState]).
Proof.
  split.
  - apply (load_single_band_file lonely_world "a.png" single_band_file);
      [reflexivity|reflexivity|simpl; lia].
  - apply (load_images_needs_two_channels lonely_world fresh_app ["a.png"]).
    vm_compute. lia.
Defined.

(** C10. Called with no paths, [load_channels_from_paths] raises
    [ValueError] and returns no stack. *)
Theorem load_channels_from_no_paths (w : World) :
  load_channels_from_paths w [] = inl (ValueError "No input paths provided.").
Proof. reflexivity. Qed.

(** ** Saving *)

Lemma is_output_conflict_iff (w : World) (app : App.App) (p : string) :
  App._is_output_conflict w app p = true
  <-> exists src, src ∈ App.source_paths app /\ abspath w src = abspath w p.
Proof.
  unfold App._is_output_conflict. rewrite existsb_exists. split.
  - intros (src & Hin & Heq). exists src. split; [by apply list_elem_of_In|].
    by apply String.eqb_eq.
  - intros (src & Hin & Heq). exists src. split; [by apply list_elem_of_In|].
    by apply String.eqb_eq.
Qed.

(** The dialog loop only shows errors, and leaves with a destination that
    is neither a source nor an existing path. *)
Lemma ask_output_path_spec (w : World) (app : App.App) (answers : list string) :
  Forall save_failed (App.ask_output_path w app answers).1 /\
  forall p, (App.ask_output_path w app answers).2 = App.Chosen p ->
            p ∈ answers /\ ~ refused w app p.
Proof.
  induction answers as [|a rest [IHev IHp]]; simpl.
  - split; [constructor|]. intros p Hp. discriminate.
  - destruct (String.eqb a "") eqn:Hempty; simpl.
    { split; [constructor|]. intros p Hp. discriminate. }
    destruct (App._is_output_conflict w app a) eqn:Hconf.
    { destruct (App.ask_output_path w app rest) as [evs r]. simpl in *. split.
      - constructor; [by eexists|done].
      - intros p Hp. destruct (IHp p Hp) as [Hin Hok].
        split; [by apply list_elem_of_further|done]. }
    destruct (path_exists w a) eqn:Hex.
    { destruct (App.ask_output_path w app rest) as [evs r]. simpl in *. split.
      - constructor; [by eexists|done].
      - intros p Hp. destruct (IHp p Hp) as [Hin Hok].
        split; [by apply list_elem_of_further|done]. }
    simpl. split; [constructor|]. intros p [= <-].
    split; [apply list_elem_of_here|]. intros [Hc|He]; congruence.
Qed.

(** While every answer is refused, each one gets its error and the dialog
    stays open. *)
Lemma ask_output_path_all_refused (w : World) (app : App.App) (answers : list string) :
  Forall (fun p => p <> "" /\ refused w app p) answers ->
  exists evs,
    App.ask_output_path w app answers = (evs, App.Waiting) /\
    length evs = length answers /\ Forall save_failed evs.
Proof.
  induction 1 as [|a rest [Hne Href] _ (evs & IHeq & IHlen & IHev)]; simpl.
  - exists []. by repeat split.
  - destruct (String.eqb a "") eqn:Hempty; [by apply String.eqb_eq in Hempty|].
    rewrite IHeq.
    destruct (App._is_output_conflict w app a) eqn:Hconf.
    { eexists. split; [reflexivity|]. simpl. split; [by rewrite IHlen|].
      constructor; [by eexists|done]. }
    destruct Href as [Hc|He]; [congruence|]. rewrite He.
    eexists. split; [reflexivity|]. simpl. split; [by rewrite IHlen|].
    constructor; [by eexists|done].
Qed.

Lemma save_failed_not_call (evs : list App.Event) (p : string) :
  Forall save_failed evs -> App.SaveChannels p ∉ evs.
Proof.
  intros Hall Hin. rewrite Forall_forall in Hall.
  destruct (Hall _ Hin) as [msg Hmsg]. discriminate.
Qed.

Lemma save_channels_files (w w' : World) channels path tiffinfo save_kwargs (q : string) :
  save_channels w channels path tiffinfo save_kwargs = inr w' ->
  q <> path -> files w' !! q = files w !! q.
Proof.
  unfold save_channels. destruct channels as [|first rest]; [discriminate|].
  destruct (writable w path); [|discriminate].
  intros [= <-] Hne. simpl. by rewrite lookup_insert_ne.
Qed.

(** C6. [_is_output_conflict] is true exactly when the absolute path of
    the destination is the absolute path of some source.  Whatever the
    user answers, [_save_aligned] calls [save_channels] only on a
    destination that is neither a source path nor an existing path, and
    every path that is one of those holds after the save what it held
    before.  As long as every answer is such a path, each answer gets a
    "Save failed" error box, nothing is written and the application state
    does not change. *)
Theorem save_refuses_sources_and_existing `{Runtime}
    (w : World) (app : App.App) (answers : list string) :
  App._has_channels app = true ->
  (forall p,
     App._is_output_conflict w app p = true
     <-> exists src, src ∈ App.source_paths app /\ abspath w src = abspath w p) /\
  (forall p, App.SaveChannels p ∈ (App._save_aligned w app answers).2 ->
             ~ refused w app p) /\
  (forall p, refused w app p ->
             files (App._save_aligned w app answers).1.1 !! p = files w !! p) /\
  (Forall (fun p => p <> "" /\ refused w app p) answers ->
   exists evs,
     App._save_aligned w app answers = (w, app, evs) /\
     length evs = length answers /\ Forall save_failed evs).
Proof.
  intros Hch. split; [apply is_output_conflict_iff|].
  unfold App._save_aligned. rewrite Hch. simpl.
  destruct (ask_output_path_spec w app answers) as [Hevs Hchosen].
  split; [|split].
  - intros p. destruct (App.ask_output_path w app answers) as [evs asked].
    simpl in Hevs, Hchosen.
    destruct asked as [|dest|]; simpl;
      try (intros Hin; by apply save_failed_not_call in Hin).
    destruct (Hchosen dest eq_refl) as [_ Hok].
    destruct (App.aligned_channels app) as [exc|aligned]; simpl.
    + rewrite elem_of_app, list_elem_of_singleton.
      intros [Hin|Hin]; [by apply save_failed_not_call in Hin|discriminate].
    + destruct (save_channels w aligned dest _ _) as [exc|w']; simpl;
        rewrite elem_of_app, elem_of_cons, list_elem_of_singleton;
        (intros [Hin|[[= ->]|Hin]];
         [by apply save_failed_not_call in Hin|done|discriminate]).
  - intros p Href. destruct (App.ask_output_path w app answers) as [evs asked].
    simpl in Hchosen.
    destruct asked as [|dest|]; simpl; try done.
    destruct (Hchosen dest eq_refl) as [_ Hok].
    destruct (App.aligned_channels app) as [exc|aligned]; simpl; [done|].
    destruct (save_channels w aligned dest _ _) as [exc|w'] eqn:Hsave; simpl; [done|].
    apply (save_channels_files _ _ _ _ _ _ p) in Hsave; [done|].
    intros ->. by apply Hok.
  - intros Hall.
    destruct (ask_output_path_all_refused w app answers Hall) as (evs & -> & Hlen & Hev).
    by exists evs.
Qed.

Lemma save_refuses_sources_and_existing_witness :
  App._has_channels two_channel_app = true /\
  App._save_aligned (H := sample_runtime) two_file_world two_channel_app
    ["a.png"; "old.tif"]
  = (two_file_world, two_channel_app,
     [App.ShowError "Save failed"
        "Pick a new filename. Original images are never overwritten.";
      App.ShowError "Save failed"
        "File already exists. Choose a new name to avoid overwriting."]) /\
  (forall p,
     App.SaveChannels p ∈
       (App._save_aligned (H := sample_runtime) two_file_world two_channel_app
          ["a.png"; "out.tif"]).2 ->
     ~ refused two_file_world two_channel_app p).
Proof.
  split; [reflexivity|]. split; [vm_compute; reflexivity|].
  exact (proj1 (proj2 (save_refuses_sources_and_existing (H := sample_runtime)
                         two_file_world two_channel_app ["a.png"; "out.tif"] eq_refl))).
Defined.

(** ** The alignment marker *)

Lemma copy_tiffinfo_id (t : Directory) : _copy_tiffinfo t = t.
Proof.
  unfold _copy_tiffinfo.
  apply (map_fold_weak_ind (fun (r t' : Directory) => r = t')); [done|].
  intros tag value m r _ ->. done.
Qed.

Lemma lower_app (a b : string) : lower (a +:+ b) = lower a +:+ lower b.
Proof. induction a as [|c a IH]; simpl; [done|by rewrite IH]. Qed.

Lemma prefix_refl (s : string) : String.prefix s s = true.
Proof.
  induction s as [|c s IH]; simpl; [done|].
  destruct (ascii_dec c c); [done|congruence].
Qed.

Lemma contains_app_r (needle a : string) : contains needle (a +:+ needle) = true.
Proof.
  induction a as [|c a IH]; simpl.
  - destruct needle as [|c needle]; simpl; [done|].
    destruct (ascii_dec c c); [|congruence].
    by rewrite prefix_refl.
  - rewrite IH. apply orb_true_r.
Qed.

(** A needle that starts a text ending in [suffix] starts the text before it
    already, or runs over into the suffix with one of its own tails. *)
Lemma prefix_app_inv (needle s suffix : string) :
  String.prefix needle (s +:+ suffix) = true ->
  String.prefix needle s = true \/
  exists tail, tail ∈ suffixes needle /\ tail <> "" /\ String.prefix tail suffix = true.
Proof.
  revert needle. induction s as [|c s IH]; intros needle Hp; simpl in Hp.
  - destruct needle as [|d needle]; [by left|]. right.
    exists (String d needle). split; [apply list_elem_of_here|]. by split.
  - destruct needle as [|d needle]; [by left|]. simpl in Hp. simpl.
    destruct (ascii_dec d c) as [->|]; [|discriminate].
    destruct (IH needle Hp) as [Hl|(tail & Hin & Hne & Htail)]; [by left|].
    right. exists tail. split; [by apply list_elem_of_further|by split].
Qed.

Lemma contains_occurrences (needle hay : string) :
  contains needle hay = true <-> (0 < occurrences needle hay)%nat.
Proof.
  induction hay as [|c hay IH]; cbn [contains occurrences].
  - rewrite orb_false_r. destruct (String.prefix needle ""); simpl; split;
      (done || lia).
  - destruct (String.prefix needle (String c hay)); simpl.
    + split; (done || lia).
    + apply IH.
Qed.

Lemma contains_false_occurrences (needle hay : string) :
  contains needle hay = false -> occurrences needle hay = 0%nat.
Proof.
  intros Hc. destruct (occurrences needle hay) eqn:E; [done|].
  assert (contains needle hay = true) as Ht by (apply contains_occurrences; lia).
  congruence.
Qed.

(** The lower-case marker and what the code appends after the old text. *)
Lemma marker_never_straddles (s : string) :
  contains (lower default_tag_text) s = false ->
  occurrences (lower default_tag_text) (s +:+ lower (" | " +:+ default_tag_text)) = 1%nat.
Proof.
  induction s as [|c s IH]; intros Hc; [reflexivity|].
  simpl in Hc. apply orb_false_iff in Hc as [Hhere Hrest].
  change (String c s +:+ ?t) with (String c (s +:+ t)).
  cbn [occurrences]. rewrite (IH Hrest).
  destruct (String.prefix (lower default_tag_text)
              (String c (s +:+ lower (" | " +:+ default_tag_text)))) eqn:Hp; [|done].
  exfalso.
  apply (prefix_app_inv _ (String c s)) in Hp as [Hl|(tail & Hin & Hne & Htail)].
  - simpl in Hl. congruence.
  - assert (forallb (fun t => String.eqb t "" ||
                      negb (String.prefix t (lower (" | " +:+ default_tag_text))))
              (suffixes (lower default_tag_text)) = true) as Hall by reflexivity.
    rewrite forallb_forall in Hall.
    specialize (Hall tail (proj1 (list_elem_of_In _ _) Hin)).
    apply orb_true_iff in Hall as [Hempty|Hno].
    + by apply String.eqb_eq in Hempty.
    + rewrite Htail in Hno. discriminate.
Qed.

Lemma add_alignment_tag_lookup_other (tiffinfo : option Directory) (tag_text : string) (k : Z) :
  k <> 270%Z ->
  add_alignment_tag tiffinfo tag_text !! k = default ∅ tiffinfo !! k.
Proof.
  intros Hk. unfold add_alignment_tag.
  assert (match tiffinfo with Some t => _copy_tiffinfo t | None => ∅ end
          = default ∅ tiffinfo) as ->
    by (destruct tiffinfo; simpl; [apply copy_tiffinfo_id|done]).
  destruct (default ∅ tiffinfo !! 270%Z) as [v|];
    [destruct (tag_truthy v);
     [destruct (negb (contains (lower tag_text) (lower (tag_str v))))|]|];
    by rewrite ?lookup_insert_ne.
Qed.

(** What the description holds after one application. *)
Lemma add_alignment_tag_cases (tiffinfo : option Directory) (tag_text : string) :
  let info := default ∅ tiffinfo in
  let once := add_alignment_tag tiffinfo tag_text in
  (once = info /\
   exists v, info !! 270%Z = Some v /\ tag_truthy v = true /\
             contains (lower tag_text) (lower (tag_str v)) = true) \/
  (once = <[270%Z := TagText (description info +:+ " | " +:+ tag_text)]> info /\
   contains (lower tag_text) (lower (description info)) = false) \/
  (once = <[270%Z := TagText tag_text]> info).
Proof.
  intros info once. subst once. unfold add_alignment_tag.
  assert (match tiffinfo with Some t => _copy_tiffinfo t | None => ∅ end = info) as ->
    by (destruct tiffinfo; simpl; [apply copy_tiffinfo_id|done]).
  unfold description.
  destruct (info !! 270%Z) as [v|] eqn:Hv; [|by right; right].
  destruct (tag_truthy v) eqn:Ht; [|by right; right].
  destruct (contains (lower tag_text) (lower (tag_str v))) eqn:Hc; simpl.
  - left. split; [done|]. by exists v.
  - right. left. by split.
Qed.

Lemma contains_app_r2 (needle a b : string) :
  contains needle (a +:+ b +:+ needle) = true.
Proof.
  induction a as [|c a IH]; simpl; [apply (contains_app_r needle b)|].
  rewrite IH. apply orb_true_r.
Qed.

Lemma contains_refl (s : string) : contains s s = true.
Proof. apply (contains_app_r s ""). Qed.

Lemma app_separator_nonempty (a t : string) : String.eqb (a +:+ " | " +:+ t) "" = false.
Proof. by destruct a. Qed.

(** A description that carries the marker is left alone. *)
Lemma add_alignment_tag_fixed (info : Directory) (tag_text : string) (v : TagValue) :
  info !! 270%Z = Some v -> tag_truthy v = true ->
  contains (lower tag_text) (lower (tag_str v)) = true ->
  add_alignment_tag (Some info) tag_text = info.
Proof.
  intros Hv Ht Hc. unfold add_alignment_tag.
  rewrite copy_tiffinfo_id, Hv, Ht, Hc. done.
Qed.

Lemma add_alignment_tag_twice (tiffinfo : option Directory) (tag_text : string) :
  add_alignment_tag (Some (add_alignment_tag tiffinfo tag_text)) tag_text
  = add_alignment_tag tiffinfo tag_text.
Proof.
  destruct (add_alignment_tag_cases tiffinfo tag_text)
    as [[-> (v & Hv & Ht & Hc)]|[[-> Hc]| ->]].
  - by apply (add_alignment_tag_fixed _ _ v).
  - apply (add_alignment_tag_fixed _ _
             (TagText (description (default ∅ tiffinfo) +:+ " | " +:+ tag_text))).
    + by rewrite lookup_insert_eq.
    + simpl. by rewrite app_separator_nonempty.
    + simpl. rewrite !lower_app. apply contains_app_r2.
  - destruct (String.eqb tag_text "") eqn:Hempty.
    + apply String.eqb_eq in Hempty. subst tag_text.
      unfold add_alignment_tag. rewrite copy_tiffinfo_id, lookup_insert_eq. simpl.
      by rewrite insert_insert_eq.
    + apply (add_alignment_tag_fixed _ _ (TagText tag_text)).
      * by rewrite lookup_insert_eq.
      * simpl. by rewrite Hempty.
      * simpl. apply contains_refl.
Qed.

(** C7 (as stated, refuted). A description that holds the marker twice
    before holds it twice after two applications, not once. *)
Lemma marker_held_twice_stays_twice :
  ~ (forall tiffinfo : option Directory,
       let once := add_alignment_tag tiffinfo default_tag_text in
       let twice := add_alignment_tag (Some once) default_tag_text in
       occurrences default_tag_text (description twice) = 1%nat).
Proof.
  intros Hclaim. specialize (Hclaim (Some marked_twice)).
  vm_compute in Hclaim. discriminate.
Qed.

(** C7 (amended). [add_alignment_tag] is idempotent: for every metadata
    directory (or none) the second application returns exactly the
    directory the first one returned.  When the description tag (tag 270)
    of the input holds the marker at most once, compared without regard to
    letter case as the code compares, the description after two
    applications holds it exactly once. *)
Theorem add_alignment_tag_idempotent (tiffinfo : option Directory) :
  let once := add_alignment_tag tiffinfo default_tag_text in
  let twice := add_alignment_tag (Some once) default_tag_text in
  twice = once /\
  ((ci_occurrences default_tag_text (description (default ∅ tiffinfo)) <= 1)%nat ->
   ci_occurrences default_tag_text (description twice) = 1%nat).
Proof.
  intros once twice. subst once twice.
  rewrite add_alignment_tag_twice. split; [done|]. intros Hmost.
  destruct (add_alignment_tag_cases tiffinfo default_tag_text)
    as [[-> (v & Hv & Ht & Hc)]|[[-> Hc]| ->]].
  - unfold description in *. rewrite Hv in *.
    apply contains_occurrences in Hc. unfold ci_occurrences in *. lia.
  - unfold description at 1. rewrite lookup_insert_eq. simpl.
    unfold ci_occurrences. rewrite lower_app.
    by apply marker_never_straddles.
  - unfold description. by rewrite lookup_insert_eq.
Qed.

Lemma add_alignment_tag_idempotent_witness :
  (ci_occurrences default_tag_text (description plain_directory) <= 1)%nat /\
  add_alignment_tag
    (Some (add_alignment_tag (Some plain_directory) default_tag_text)) default_tag_text
  = add_alignment_tag (Some plain_directory) default_tag_text /\
  ci_occurrences default_tag_text
    (description
       (add_alignment_tag
          (Some (add_alignment_tag (Some plain_directory) default_tag_text))
          default_tag_text)) = 1%nat.
Proof.
  assert (ci_occurrences default_tag_text (description plain_directory) <= 1)%nat
    as Hmost by (vm_compute; lia).
  split; [exact Hmost|].
  destruct (add_alignment_tag_idempotent (Some plain_directory)) as [Hsame Hone].
  split; [exact Hsame|exact (Hone Hmost)].
Defined.

(** ** Image objects *)

Section Objects.
Context `{Runtime}.

(** A library call reads its argument and puts its result in a new cell
    at the end of the heap. *)
Lemma read_then_alloc (f : Image -> Image) (r : Obj.Ref) (h : list Image) (im : Image) :
  h !! r = Some im ->
  (Obj.read r ≫= fun im => Obj.alloc (f im)) h = Some (length h, h ++ [f im]).
Proof.
  intros Hr. unfold mbind, Obj.M_bind, Obj.read, Obj.alloc. by rewrite Hr.
Qed.

Lemma obj_copy_spec (r : Obj.Ref) (h : list Image) (im : Image) :
  h !! r = Some im -> Obj.copy r h = Some (length h, h ++ [copy im]).
Proof. apply (read_then_alloc copy). Qed.

Lemma obj_rotate_spec (r : Obj.Ref) (h : list Image) (im : Image) angle resample fill :
  h !! r = Some im ->
  Obj.rotate r angle resample fill h
  = Some (length h, h ++ [rotate im angle resample fill]).
Proof. apply (read_then_alloc (fun im => rotate im angle resample fill)). Qed.

Lemma obj_transform_spec (r : Obj.Ref) (h : list Image) (im : Image) data resample fill :
  h !! r = Some im ->
  Obj.transform r data resample fill h
  = Some (length h, h ++ [transform im (size im) data resample fill]).
Proof.
  apply (read_then_alloc (fun im => transform im (size im) data resample fill)).
Qed.

(** The object [apply_transform] returns holds the transformed picture,
    and the heap has only grown. *)
Lemma obj_apply_transform_spec (image : Obj.Ref) (h : list Image) (img : Image)
    (state : TransformState) (resample : Resample) :
  h !! image = Some img ->
  exists (out : Obj.Ref) (fresh : list Image),
    Obj.apply_transform image state resample h = Some (out, h ++ fresh) /\
    (length h <= out)%nat /\
    (h ++ fresh) !! out = Some (apply_transform img state resample).
Proof.
  intros Himg. unfold Obj.apply_transform, apply_transform.
  unfold mbind at 1, Obj.M_bind at 1. rewrite (obj_copy_spec _ _ _ Himg).
  assert ((h ++ [copy img]) !! length h = Some (copy img)) as Hcopy
    by (by apply list_lookup_middle).
  destruct (truthy (angle_deg state)).
  - unfold mbind at 1, Obj.M_bind at 1.
    rewrite (obj_rotate_spec _ _ _ _ _ _ Hcopy).
    set (turned := rotate (copy img) (angle_deg state) resample 0).
    assert (((h ++ [copy img]) ++ [turned]) !! length (h ++ [copy img]) = Some turned)
      as Hturned by (by apply list_lookup_middle).
    destruct (truthy (dx state) || truthy (dy state))%bool.
    + unfold mbind, Obj.M_bind. rewrite (obj_transform_spec _ _ _ _ _ _ Hturned).
      exists (length ((h ++ [copy img]) ++ [turned])),
             [copy img; turned;
              transform turned (size turned)
                (1, 0, - dx state, 0, 1, - dy state) resample 0].
      split; [|split].
      * unfold mret, Obj.M_ret. do 2 f_equal. by rewrite <- !app_assoc.
      * rewrite !length_app. lia.
      * replace (h ++ [copy img; turned; _])
          with (((h ++ [copy img]) ++ [turned]) ++
                [transform turned (size turned)
                   (1, 0, - dx state, 0, 1, - dy state) resample 0])
          by (by rewrite <- !app_assoc).
        by apply list_lookup_middle.
    + exists (length (h ++ [copy img])), [copy img; turned].
      split; [|split].
      * unfold mbind, Obj.M_bind, mret, Obj.M_ret. do 2 f_equal.
        by rewrite <- !app_assoc.
      * rewrite !length_app. lia.
      * replace (h ++ [copy img; turned]) with ((h ++ [copy img]) ++ [turned])
          by (by rewrite <- !app_assoc).
        done.
  - unfold mbind at 1, Obj.M_bind at 1. unfold mret at 1, Obj.M_ret at 1.
    destruct (truthy (dx state) || truthy (dy state))%bool.
    + unfold mbind, Obj.M_bind. rewrite (obj_transform_spec _ _ _ _ _ _ Hcopy).
      exists (length (h ++ [copy img])),
             [copy img;
              transform (copy img) (size (copy img))
                (1, 0, - dx state, 0, 1, - dy state) resample 0].
      split; [|split].
      * unfold mret, Obj.M_ret. do 2 f_equal. by rewrite <- !app_assoc.
      * rewrite !length_app. lia.
      * replace (h ++ [copy img; _])
          with ((h ++ [copy img]) ++
                [transform (copy img) (size (copy img))
                   (1, 0, - dx state, 0, 1, - dy state) resample 0])
          by (by rewrite <- !app_assoc).
        by apply list_lookup_middle.
    + exists (length h), [copy img].
      split; [|split]; [done|lia|done].
Qed.
End Objects.

(** C9. [apply_transform] does not touch its input: whatever the state
    and the filter, every image object that existed before the call, the
    input among them, holds the same picture after it, and the object
    returned is a new one (also for the identity state, where it is a
    copy) that holds the transformed picture. *)
Theorem apply_transform_keeps_input `{Runtime} (h : list Image) (image : Obj.Ref)
    (img : Image) (state : TransformState) (resample : Resample) :
  h !! image = Some img ->
  exists (out : Obj.Ref) (h' : list Image),
    Obj.apply_transform image state resample h = Some (out, h') /\
    h' !! image = Some img /\
    (forall r im, h !! r = Some im -> h' !! r = Some im) /\
    h !! out = None /\ out <> image /\
    h' !! out = Some (apply_transform img state resample).
Proof.
  intros Himg.
  destruct (obj_apply_transform_spec image h img state resample Himg)
    as (out & fresh & Hrun & Hnew & Hout).
  exists out, (h ++ fresh).
  assert (forall r im, h !! r = Some im -> (h ++ fresh) !! r = Some im) as Hkeep.
  { intros r im Hr. rewrite lookup_app_l; [done|]. by apply lookup_lt_Some in Hr. }
  split; [done|]. split; [by apply Hkeep|]. split; [done|].
  split; [by apply lookup_ge_None|]. split; [|done].
  apply lookup_lt_Some in Himg. lia.
Qed.

Lemma apply_transform_keeps_input_witness :
  [wide_image] !! 0%nat = Some wide_image /\
  exists (out : Obj.Ref) (h' : list Image),
    Obj.apply_transform (H := sample_runtime) 0%nat identity_state BICUBIC [wide_image]
    = Some (out, h') /\
    h' !! 0%nat = Some wide_image /\ out <> 0%nat /\ h' !! out = Some wide_image.
Proof.
  split; [reflexivity|].
  destruct (apply_transform_keeps_input (H := sample_runtime) [wide_image] 0%nat
              wide_image identity_state BICUBIC eq_refl)
    as (out & h' & Hrun & Hin & _ & _ & Hne & Hout).
  exists out, h'. repeat split; assumption.
Defined.

(** * Part III: further properties of the code *)

(** ** Fit scale *)


Lemma py_min_le_l a b : py_min a b <= a.
Proof.
  destruct (py_min_cases a b) as [[Hlt ->]|[Hle ->]];
    [by apply Qlt_le_weak|apply Qle_refl].
Qed.

Lemma py_max_ge_l a b : a <= py_max a b.
Proof.
  destruct (py_max_cases a b) as [[Hlt ->]|[Hle ->]];
    [by apply Qlt_le_weak|apply Qle_refl].
Qed.

Lemma py_max_ge_r a b : b <= py_max a b.
Proof.
  destruct (py_max_cases a b) as [[Hlt ->]|[Hle ->]]; [apply Qle_refl|done].
Qed.

Lemma inject_Z_pos (n : Z) : (0 < n)%Z -> 0 < inject_Z n.
Proof. intros Hn. change 0 with (inject_Z 0). by rewrite <- Zlt_Qlt. Qed.







(** ** The matrix of a region *)

Lemma affine_matrix_for_crop_shifts `{Runtime} (state : TransformState)
    (sz : nat * nat) (x0 y0 x y : nat) :
  let p := affine_point (affine_matrix_for_crop state sz (Z.of_nat x0) (Z.of_nat y0)) x y in
  let q := affine_point (affine_matrix_for_state state sz) (x0 + x) (y0 + y) in
  p.1 == q.1 /\ p.2 == q.2.
Proof.
  unfold affine_matrix_for_crop, affine_matrix_for_state, affine_point. simpl.
  rewrite !Nat2Z.inj_add, !inject_Z_plus. split; ring.
Qed.

Section TransformCrop.
Context `{Runtime}.


End TransformCrop.



(** ** Viewport *)



(** With more content than canvas, half of the excess is an admissible
    start. *)
Lemma half_excess_admissible (s c : Q) :
  0 < s -> c < s ->
  0 <= (s - c) / 2 / s /\ (s - c) / 2 / s <= 1 - c / s.
Proof.
  intros Hs Hc.
  assert ((s - c) / 2 / s == (1 - c / s) * (1 # 2)) as -> by (field; lra).
  assert (0 < 1 - c / s) as Hpos.
  { assert (c / s < 1) by (apply Qlt_shift_div_r; lra). lra. }
  split; lra.
Qed.

(** X4. The fractions [_center_view] scrolls to are not negative and are fixed
    by [clamp_scroll_fraction]. *)
Theorem center_view_is_clamped (scroll_w scroll_h canvas_w canvas_h : Z) (fx fy : Q) :
  _center_view scroll_w scroll_h canvas_w canvas_h = Some (fx, fy) ->
  (0 <= fx /\ clamp_scroll_fraction fx (inject_Z scroll_w) (inject_Z canvas_w) = fx) /\
  (0 <= fy /\ clamp_scroll_fraction fy (inject_Z scroll_h) (inject_Z canvas_h) = fy).
Proof.
  unfold _center_view.
  destruct ((scroll_w <=? 0)%Z || (scroll_h <=? 0)%Z)%bool eqn:E; [discriminate|].
  apply orb_false_iff in E as [Hw Hh]. intros [= <- <-].
  assert (forall s c : Z, (s <=? 0)%Z = false ->
            0 <= center_fraction s c /\
            clamp_scroll_fraction (center_fraction s c) (inject_Z s) (inject_Z c)
            = center_fraction s c) as Haxis.
  { intros s c Hs. apply Z.leb_gt in Hs.
    pose proof (inject_Z_pos s Hs) as Hsq.
    assert (0 <= center_fraction s c /\
            center_fraction s c <= max_scroll_start (inject_Z s) (inject_Z c)) as [H0 H1].
    { unfold center_fraction, max_scroll_start.
      destruct (s <=? c)%Z eqn:Hsc.
      - split; [apply Qle_refl|apply py_max_zero_nonneg].
      - apply Z.leb_gt in Hsc.
        assert (inject_Z c < inject_Z s) as Hcq by (by rewrite <- Zlt_Qlt).
        unfold Z.sub. rewrite inject_Z_plus, inject_Z_opp.
        destruct (half_excess_admissible (inject_Z s) (inject_Z c) Hsq Hcq) as [Ha Hb].
        assert (0 <= (inject_Z s + - inject_Z c) / 2) as Hhalf
          by (apply Qle_shift_div_l; lra).
        assert (py_max ((inject_Z s + - inject_Z c) / 2) 0
                = (inject_Z s + - inject_Z c) / 2) as ->.
        { destruct (py_max_cases ((inject_Z s + - inject_Z c) / 2) 0)
            as [[Hlt _]|[_ ->]]; [|done].
          exfalso. exact (Qlt_not_le _ _ Hlt Hhalf). }
        split; [exact Ha|].
        eapply Qle_trans; [exact Hb|]. apply py_max_ge_r. }
    split; [done|]. by apply clamp_fixed. }
  split; by apply Haxis.
Qed.

Lemma center_view_is_clamped_witness :
  _center_view 200 100 100 100 = Some (center_fraction 200 100, center_fraction 100 100) /\
  clamp_scroll_fraction (center_fraction 200 100) (inject_Z 200) (inject_Z 100)
  = center_fraction 200 100.
Proof.
  split; [reflexivity|].
  exact (proj2 (proj1 (center_view_is_clamped 200 100 100 100 _ _ eq_refl))).
Defined.

(** X5. Panning clamps: the new horizontal start is the clamped sum and keeps
    the canvas inside the content. *)
Theorem pan_stays_inside (scroll_w scroll_h canvas_w canvas_h : Z)
    (x_start y_start : Q) (dx dy : Z) (new_x : Q) :
  (_pan_by_pixels scroll_w scroll_h canvas_w canvas_h x_start y_start dx dy).1
  = Some new_x ->
  new_x = clamp_scroll_fraction (x_start + inject_Z dx / inject_Z scroll_w)
            (inject_Z scroll_w) (inject_Z canvas_w) /\
  0 <= new_x /\ new_x <= 1 - inject_Z canvas_w / inject_Z scroll_w.
Proof.
  unfold _pan_by_pixels.
  destruct ((scroll_w <=? 0)%Z || (scroll_h <=? 0)%Z)%bool eqn:E; [discriminate|].
  apply orb_false_iff in E as [Hw _]. apply Z.leb_gt in Hw. simpl.
  destruct (canvas_w <? scroll_w)%Z eqn:Hc; [|discriminate].
  apply Z.ltb_lt in Hc. intros [= <-].
  pose proof (inject_Z_pos scroll_w Hw) as Hsq.
  rewrite <- (clamp_unfold (inject_Z scroll_w) (inject_Z canvas_w) Hsq).
  split; [done|]. split; [by apply clamp_lower|].
  eapply Qle_trans; [by apply clamp_upper|].
  unfold max_scroll_start.
  assert (inject_Z canvas_w / inject_Z scroll_w < 1) as Hr.
  { apply Qlt_shift_div_r; [done|]. rewrite Qmult_1_l. by rewrite <- Zlt_Qlt. }
  destruct (py_max_cases 0 (1 - inject_Z canvas_w / inject_Z scroll_w))
    as [[_ ->]|[Hle ->]]; [apply Qle_refl|]. lra.
Qed.

Lemma pan_stays_inside_witness :
  (_pan_by_pixels 200 100 100 100 0 0 500 0).1
  = Some (py_min (py_max (0 + inject_Z 500 / inject_Z 200) 0)
            (py_max 0 (1 - inject_Z 100 / inject_Z 200))) /\
  py_min (py_max (0 + inject_Z 500 / inject_Z 200) 0)
    (py_max 0 (1 - inject_Z 100 / inject_Z 200))
  <= 1 - inject_Z 100 / inject_Z 200.
Proof.
  split; [reflexivity|].
  exact (proj2 (proj2 (pan_stays_inside 200 100 100 100 0 0 500 0 _ eq_refl))).
Defined.

(** ** Zoom *)

Lemma clamp_zoom_range (value : Q) : zoom_min <= _clamp_zoom value <= zoom_max.
Proof.
  unfold _clamp_zoom. split; [apply py_max_ge_l|].
  destruct (py_max_cases zoom_min (py_min zoom_max value)) as [[_ ->]|[_ ->]];
    [apply py_min_le_l|discriminate].
Qed.

Lemma clamp_zoom_fixed (value : Q) :
  zoom_min <= value <= zoom_max -> _clamp_zoom value == value.
Proof.
  intros [Hlo Hhi]. unfold _clamp_zoom.
  destruct (py_min_cases zoom_max value) as [[Hlt ->]|[Hle ->]].
  - destruct (py_max_cases zoom_min value) as [[_ ->]|[Hge ->]]; [reflexivity|].
    by apply Qle_antisym.
  - assert (value == zoom_max) as Hv by (by apply Qle_antisym).
    destruct (py_max_cases zoom_min zoom_max) as [[_ ->]|[Hge ->]]; [by symmetry|].
    exfalso. apply Hge. reflexivity.
Qed.

(** X6. After any zoom controls the zoom is between [zoom_min] and [zoom_max]
    and clamping it again changes nothing. *)
Theorem zoom_stays_in_range (ops : list ZoomOp) (zoom : Q) :
  ops <> [] ->
  let z := fold_left (fun z op => zoom_op op z) ops zoom in
  zoom_min <= z <= zoom_max /\ _clamp_zoom z == z.
Proof.
  intros Hne z. subst z.
  assert (zoom_min <= fold_left (fun z op => zoom_op op z) ops zoom <= zoom_max) as Hr.
  { destruct (exists_last Hne) as (front & op & ->).
    rewrite fold_left_app. simpl. destruct op; apply clamp_zoom_range. }
  split; [done|by apply clamp_zoom_fixed].
Qed.

Lemma zoom_stays_in_range_witness :
  [ZoomIn; ZoomIn; ZoomOut] <> [] /\
  fold_left (fun z op => zoom_op op z) [ZoomIn; ZoomIn; ZoomOut] 32 <= zoom_max.
Proof.
  assert ([ZoomIn; ZoomIn; ZoomOut] <> []) as Hne by discriminate.
  split; [exact Hne|].
  exact (proj2 (proj1 (zoom_stays_in_range [ZoomIn; ZoomIn; ZoomOut] 32 Hne))).
Defined.

(** ** Display range and levels *)

(** X7. A manual display range is only handed on when it is not empty, and
    then [to_display_gray] maps the levels (it does not fall back to the
    plain conversion). *)
Theorem display_range_is_valid (auto_levels : bool) (display_min display_max : option Q)
    (min_val max_val : Q) :
  _display_range auto_levels display_min display_max = Some (min_val, max_val) ->
  auto_levels = false /\ min_val < max_val /\
  forall `{Runtime} (image : Image),
    to_display_gray image (Some (min_val, max_val))
    = point (if negb (bool_decide (mode image ∈ ["L"; "I"; "I;16"; "F"]))
             then convert_L image else image)
        (level_mapper min_val max_val).
Proof.
  unfold _display_range. destruct auto_levels; [discriminate|].
  destruct (Qle_bool (_safe_float display_max 255 true) (_safe_float display_min 0 true))
    eqn:E; [discriminate|].
  intros [= <- <-]. split; [done|]. split.
  - apply Qnot_le_lt. intros Hle. apply Qle_bool_iff in Hle. congruence.
  - intros R image. unfold to_display_gray, _apply_display_levels. by rewrite E.
Qed.

Lemma display_range_is_valid_witness :
  _display_range false (Some 0) None = Some (0, 255) /\ 0 < 255.
Proof.
  split; [reflexivity|].
  exact (proj1 (proj2 (display_range_is_valid false (Some 0) None 0 255 eq_refl))).
Defined.

Lemma py_int_nonneg (q : Q) : 0 <= q -> py_int q = Qfloor q.
Proof.
  intros Hq. unfold py_int, Qfloor. destruct q as [n d]. simpl.
  apply Z.quot_div_nonneg; [|lia].
  unfold Qle in Hq. simpl in Hq. lia.
Qed.


Lemma Qle_bool_false_lt (a b : Q) : Qle_bool a b = false -> b < a.
Proof.
  intros E. apply Qnot_le_lt. intros Hle. apply Qle_bool_iff in Hle. congruence.
Qed.

Section Levels.
Variables min_val max_val : Q.
Hypothesis valid : min_val < max_val.



End Levels.


Lemma eight_bit_sample_whole (v : Q) :
  eight_bit_sample v = true -> v = inject_Z (Qnum v) /\ (0 <= Qnum v <= 255)%Z.
Proof.
  unfold eight_bit_sample. destruct v as [n d]. cbn [Qnum Qden].
  rewrite !andb_true_iff. intros [[Hd H0] H1].
  apply Pos.eqb_eq in Hd. subst d. split; [reflexivity|lia].
Qed.




(** X9. The range (0, 255) shows an 8-bit image as it is. *)
Theorem full_range_levels_identity `{Runtime} (image : Image) :
  mode image = "L" -> eight_bit image = true ->
  to_display_gray image (Some (0, 255)) = image.
Proof.
  intros Hmode Hbits. unfold to_display_gray, _apply_display_levels.
  change (Qle_bool 255 0) with false. cbv iota. rewrite Hmode. simpl.
  unfold point. destruct image as [m sz bs]. simpl in *. subst m. f_equal.
  rewrite <- (list_fmap_id bs) at 2. apply list_fmap_ext. intros i p Hp.
  unfold eight_bit in Hbits. simpl in Hbits. rewrite forallb_forall in Hbits.
  assert (In p bs) as Hin by (apply list_elem_of_In; by eapply list_elem_of_lookup_2).
  specialize (Hbits p Hin). rewrite forallb_forall in Hbits.
  unfold plane_map. rewrite <- (map_id p) at 2. apply map_ext_in. intros row Hrow.
  specialize (Hbits row Hrow). rewrite forallb_forall in Hbits.
  rewrite <- (map_id row) at 2. apply map_ext_in. intros v Hv.
  destruct (eight_bit_sample_whole v (Hbits v Hv)) as [Hwhole Hr].
  set (n := Qnum v) in *. clearbody n. clear Hv. subst v. f_equal.
  unfold level_mapper.
  destruct (Qle_bool (inject_Z n) 0) eqn:E0.
  - apply Qle_bool_iff in E0. change 0 with (inject_Z 0) in E0.
    rewrite <- Zle_Qle in E0. lia.
  - destruct (Qle_bool 255 (inject_Z n)) eqn:E1.
    + apply Qle_bool_iff in E1. change 255 with (inject_Z 255) in E1.
      rewrite <- Zle_Qle in E1. lia.
    + assert ((inject_Z n - 0) * (255 / (255 - 0)) == inject_Z n) as Heq by field.
      apply Qle_bool_false_lt in E0.
      rewrite py_int_nonneg by (rewrite Heq; by apply Qlt_le_weak).
      by rewrite (Qfloor_comp _ _ Heq), Qfloor_Z.
Qed.

Lemma full_range_levels_identity_witness :
  mode dim_image = "L" /\ eight_bit dim_image = true /\
  to_display_gray (H := sample_runtime) dim_image (Some (0, 255)) = dim_image.
Proof.
  split; [reflexivity|]. split; [reflexivity|].
  exact (full_range_levels_identity (H := sample_runtime) dim_image eq_refl eq_refl).
Defined.

(** ** What loading returns *)

Lemma mapM_result_inr {A B : Type} (f : A -> result B) (l : list A) (k : list B) :
  mapM_result f l = inr k <-> Forall2 (fun a b => f a = inr b) l k.
Proof.
  revert k. induction l as [|a l IH]; intros k; simpl.
  - split.
    + intros [= <-]. constructor.
    + intros Hk. by inversion Hk.
  - unfold mbind, result_bind. destruct (f a) as [e|b] eqn:Ea.
    + split; [discriminate|]. intros Hk. inversion Hk; congruence.
    + destruct (mapM_result f l) as [e|bs] eqn:El.
      * split; [discriminate|]. intros Hk. inversion Hk as [|? b' ? k' Hb Hrest]; subst.
        apply IH in Hrest. discriminate.
      * unfold mret, result_ret. split.
        -- intros [= <-]. constructor; [done|]. by apply IH.
        -- intros Hk. inversion Hk as [|? b' ? k' Hb Hrest]; subst.
           apply IH in Hrest. congruence.
Qed.

Lemma mapM_result_inl {A B : Type} (f : A -> result B) (l : list A) (a : A) (e : exn) :
  a ∈ l -> f a = inl e -> exists e', mapM_result f l = inl e'.
Proof.
  intros Hin Ha. induction l as [|a0 l IH]; [by apply elem_of_nil in Hin|].
  simpl. unfold mbind, result_bind.
  destruct (f a0) as [e0|b] eqn:E0; [by eexists|].
  apply elem_of_cons in Hin as [->|Hin]; [congruence|].
  destruct (IH Hin) as [e' ->]. by eexists.
Qed.

Lemma ensure_same_size_ok (chs : list Image) :
  _ensure_same_size chs = inr tt ->
  chs <> [] /\ forall c1 c2, c1 ∈ chs -> c2 ∈ chs -> size c1 = size c2.
Proof.
  unfold _ensure_same_size. case_bool_decide as Hsz; [discriminate|]. intros _.
  assert (base.size (list_to_set (size <$> chs) : gset (nat * nat)) = 1%nat) as H1.
  { destruct (decide (base.size (list_to_set (size <$> chs) : gset (nat * nat)) = 1%nat));
      [done|contradiction]. }
  split.
  - intros ->. rewrite fmap_nil, list_to_set_nil, size_empty in H1. discriminate.
  - intros c1 c2 Hc1 Hc2.
    apply (size_singleton_inv (list_to_set (size <$> chs) : gset (nat * nat))); [done|..];
      apply elem_of_list_to_set, list_elem_of_fmap; eauto.
Qed.

Lemma ensure_same_size_differ (chs : list Image) (c1 c2 : Image) :
  c1 ∈ chs -> c2 ∈ chs -> size c1 <> size c2 ->
  _ensure_same_size chs = inl (ValueError "All channels must have the same dimensions.").
Proof.
  intros Hc1 Hc2 Hne. destruct (_ensure_same_size chs) as [e|[]] eqn:E.
  - unfold _ensure_same_size in E. by case_bool_decide.
  - destruct (ensure_same_size_ok chs E) as [_ Hsame]. by specialize (Hsame c1 c2 Hc1 Hc2).
Qed.

Lemma ensure_same_size_uniform (chs : list Image) (s : nat * nat) :
  chs <> [] -> (forall c, c ∈ chs -> size c = s) -> _ensure_same_size chs = inr tt.
Proof.
  intros Hne Hall. unfold _ensure_same_size.
  assert ((list_to_set (size <$> chs) : gset (nat * nat)) = {[ s ]}) as ->.
  { apply set_eq. intros t. rewrite elem_of_list_to_set, list_elem_of_fmap, elem_of_singleton.
    split.
    - intros (c & -> & Hc). by apply Hall.
    - intros ->. destruct chs as [|c chs]; [done|].
      exists c. split; [symmetry; apply Hall|]; apply list_elem_of_here. }
  rewrite size_singleton. by case_bool_decide.
Qed.

Lemma copy_fmap (l : list Image) : copy <$> l = l.
Proof. apply list_fmap_id. Qed.

(** X10. Whatever the branch taken, a stack that is returned has at least one
    channel, all channels have the same size, the paths are recorded as
    given and the save parameters are present. *)
Theorem load_stack_invariant (w : World) (paths : list string) (stack : ChannelStack) :
  load_channels_from_paths w paths = inr stack ->
  channels stack <> [] /\ source_paths stack = paths /\
  is_Some (save_kwargs stack) /\
  forall c1 c2, c1 ∈ channels stack -> c2 ∈ channels stack -> size c1 = size c2.
Proof.
  unfold load_channels_from_paths. destruct paths as [|path more]; [discriminate|].
  destruct (1 <? length (path :: more))%nat.
  - unfold mbind, result_bind.
    destruct (mapM_result (image_open w) (path :: more)) as [e|opened]; [discriminate|].
    destruct (_ensure_same_size _) as [e|[]] eqn:Es; [discriminate|].
    intros [= <-]. simpl. destruct (ensure_same_size_ok _ Es) as [Hne Hsame].
    by repeat split.
  - unfold mbind, result_bind. destruct (image_open w path) as [e|image]; [discriminate|].
    destruct (1 <? n_frames image)%nat.
    { destruct (_ensure_same_size _) as [e|[]] eqn:Es; [discriminate|].
      intros [= <-]. simpl. destruct (ensure_same_size_ok _ Es) as [Hne Hsame].
      by repeat split. }
    destruct (1 <? length (bands (frame0 image)))%nat.
    { destruct (_ensure_same_size _) as [e|[]] eqn:Es; [discriminate|].
      intros [= <-]. simpl. destruct (ensure_same_size_ok _ Es) as [Hne Hsame].
      by repeat split. }
    intros [= <-]. simpl. repeat split; [done|by eexists|].
    intros c1 c2 Hc1 Hc2. apply list_elem_of_singleton in Hc1, Hc2. by subst.
Qed.

Lemma load_stack_invariant_witness :
  load_channels_from_paths two_file_world ["a.png"; "b.png"]
  = inr (mkChannelStack [dim_image; dim_image] ["a.png"; "b.png"] None (Some ∅)) /\
  forall c1 c2, c1 ∈ [dim_image; dim_image] -> c2 ∈ [dim_image; dim_image] ->
                size c1 = size c2.
Proof.
  assert (load_channels_from_paths two_file_world ["a.png"; "b.png"]
          = inr (mkChannelStack [dim_image; dim_image] ["a.png"; "b.png"] None (Some ∅)))
    as Hload by (vm_compute; reflexivity).
  split; [exact Hload|].
  exact (proj2 (proj2 (proj2 (load_stack_invariant _ _ _ Hload)))).
Defined.

(** X11. Several paths give one channel per path, in order: the first frame of
    each file; the metadata is that of the first file. *)
Theorem load_one_channel_per_path (w : World) (paths : list string) (stack : ChannelStack) :
  (1 < length paths)%nat ->
  load_channels_from_paths w paths = inr stack ->
  exists opened : list ImageFile,
    Forall2 (fun p f => image_open w p = inr f) paths opened /\
    channels stack = frame0 <$> opened /\
    length (channels stack) = length paths /\
    tiffinfo stack = head opened ≫= _extract_tiffinfo.
Proof.
  intros Hmany. unfold load_channels_from_paths.
  destruct paths as [|path more]; [discriminate|].
  apply Nat.ltb_lt in Hmany. rewrite Hmany. unfold mbind at 1, result_bind at 1.
  destruct (mapM_result (image_open w) (path :: more)) as [e|opened] eqn:Ho; [discriminate|].
  unfold mbind, result_bind.
  destruct (_ensure_same_size _) as [e|[]]; [discriminate|].
  intros [= <-]. simpl. apply mapM_result_inr in Ho.
  exists opened. split; [done|]. split; [done|]. split; [|done].
  rewrite length_fmap. symmetry. apply (Forall2_length _ _ _ Ho).
Qed.

Lemma load_one_channel_per_path_witness :
  (1 < length ["a.png"; "b.png"])%nat /\
  exists opened : list ImageFile,
    Forall2 (fun p f => image_open two_file_world p = inr f) ["a.png"; "b.png"] opened /\
    [dim_image; dim_image] = frame0 <$> opened.
Proof.
  split; [simpl; lia|].
  destruct (load_one_channel_per_path two_file_world ["a.png"; "b.png"]
              (mkChannelStack [dim_image; dim_image] ["a.png"; "b.png"] None (Some ∅)))
    as (opened & Hopen & Hch & _); [simpl; lia|vm_compute; reflexivity|].
  exists opened. split; [exact Hopen|exact Hch].
Defined.

(** X12. A readable file with a single frame always loads: it gives one channel
    per band (one channel when it has a single band), each of the size of
    the image, and the channels of a multi-band image are single-band
    mode-L images. *)
Theorem load_single_frame_file (w : World) (path : string) (f : ImageFile) :
  image_open w path = inr f -> more_frames f = [] ->
  exists stack,
    load_channels_from_paths w [path] = inr stack /\
    length (channels stack) = Nat.max 1 (length (bands (frame0 f))) /\
    forall c, c ∈ channels stack ->
      size c = size (frame0 f) /\
      ((1 < length (bands (frame0 f)))%nat -> mode c = "L" /\ length (bands c) = 1%nat).
Proof.
  intros Hopen Hframes. unfold load_channels_from_paths. simpl.
  unfold mbind at 1, result_bind at 1. rewrite Hopen.
  unfold n_frames. rewrite Hframes. simpl.
  destruct (1 <? length (bands (frame0 f)))%nat eqn:Hb.
  - apply Nat.ltb_lt in Hb. rewrite copy_fmap.
    assert (forall c, c ∈ split (frame0 f) ->
              size c = size (frame0 f) /\ mode c = "L" /\ length (bands c) = 1%nat) as Hsplit.
    { intros c Hc. unfold split in Hc. apply list_elem_of_fmap in Hc as (p & -> & _). done. }
    rewrite (ensure_same_size_uniform (split (frame0 f)) (size (frame0 f))).
    + eexists. split; [reflexivity|]. simpl. split.
      * unfold split. rewrite length_fmap. lia.
      * intros c Hc. destruct (Hsplit c Hc) as (Hs & Hm & Hl). by repeat split.
    + unfold split. destruct (bands (frame0 f)); [simpl in Hb; lia|done].
    + intros c Hc. by destruct (Hsplit c Hc).
  - apply Nat.ltb_ge in Hb. eexists. split; [reflexivity|]. simpl. split; [lia|].
    intros c Hc. apply list_elem_of_singleton in Hc. subst c. split; [done|]. lia.
Qed.

Lemma load_single_frame_file_witness :
  image_open lonely_world "a.png" = inr single_band_file /\
  more_frames single_band_file = [] /\
  exists stack,
    load_channels_from_paths lonely_world ["a.png"] = inr stack /\
    length (channels stack) = 1%nat.
Proof.
  split; [reflexivity|]. split; [reflexivity|].
  destruct (load_single_frame_file lonely_world "a.png" single_band_file eq_refl eq_refl)
    as (stack & Hload & Hlen & _).
  exists stack. split; [exact Hload|exact Hlen].
Defined.

(** X13. Files of different sizes are turned down as a whole. *)
Theorem load_rejects_mismatched_sizes (w : World) (paths : list string)
    (opened : list ImageFile) (f1 f2 : ImageFile) :
  (1 < length paths)%nat ->
  Forall2 (fun p f => image_open w p = inr f) paths opened ->
  f1 ∈ opened -> f2 ∈ opened -> size (frame0 f1) <> size (frame0 f2) ->
  load_channels_from_paths w paths
  = inl (ValueError "All channels must have the same dimensions.").
Proof.
  intros Hmany Hopen Hf1 Hf2 Hne. unfold load_channels_from_paths.
  destruct paths as [|path more]; [simpl in Hmany; lia|].
  apply Nat.ltb_lt in Hmany. rewrite Hmany.
  apply mapM_result_inr in Hopen. unfold mbind at 1, result_bind at 1. rewrite Hopen.
  unfold mbind, result_bind.
  rewrite (ensure_same_size_differ _ (frame0 f1) (frame0 f2)); [done|..|done];
    apply list_elem_of_fmap; eauto.
Qed.

Lemma load_rejects_mismatched_sizes_witness :
  size (frame0 single_band_file) <> size (frame0 wide_file) /\
  load_channels_from_paths uneven_world ["a.png"; "b.png"]
  = inl (ValueError "All channels must have the same dimensions.").
Proof.
  assert (size (frame0 single_band_file) <> size (frame0 wide_file)) as Hne
    by discriminate.
  split; [exact Hne|].
  apply (load_rejects_mismatched_sizes uneven_world ["a.png"; "b.png"]
           [single_band_file; wide_file] single_band_file wide_file).
  - simpl. lia.
  - repeat constructor.
  - apply list_elem_of_here.
  - apply list_elem_of_further, list_elem_of_here.
  - exact Hne.
Defined.

Lemma load_multi_frame_unfold (w : World) (path : string) (f : ImageFile) :
  image_open w path = inr f -> more_frames f <> [] ->
  load_channels_from_paths w [path]
  = match _ensure_same_size (frame0 f :: more_frames f) with
    | inl e => inl e
    | inr _ =>
        inr (mkChannelStack (frame0 f :: more_frames f) [path]
               (_extract_tiffinfo f) (Some (_extract_save_kwargs f)))
    end.
Proof.
  intros Hopen Hframes. unfold load_channels_from_paths. simpl.
  unfold mbind at 1, result_bind at 1. rewrite Hopen.
  assert ((1 <? n_frames f)%nat = true) as ->.
  { apply Nat.ltb_lt. unfold n_frames. destruct (more_frames f); [done|simpl; lia]. }
  rewrite copy_fmap. reflexivity.
Qed.

(** X14. A file with several frames gives one channel per frame when the frames
    have one size, and is turned down otherwise. *)
Theorem load_multi_frame_file (w : World) (path : string) (f : ImageFile) :
  image_open w path = inr f -> more_frames f <> [] ->
  ((forall c, c ∈ more_frames f -> size c = size (frame0 f)) ->
   exists stack,
     load_channels_from_paths w [path] = inr stack /\
     channels stack = frame0 f :: more_frames f /\
     length (channels stack) = n_frames f) /\
  (forall c, c ∈ more_frames f -> size c <> size (frame0 f) ->
   load_channels_from_paths w [path]
   = inl (ValueError "All channels must have the same dimensions.")).
Proof.
  intros Hopen Hframes. rewrite (load_multi_frame_unfold w path f Hopen Hframes). split.
  - intros Hsame.
    rewrite (ensure_same_size_uniform (frame0 f :: more_frames f) (size (frame0 f)));
      [|done|].
    + eexists. split; [reflexivity|]. by split.
    + intros c Hc. apply elem_of_cons in Hc as [->|Hc]; [done|by apply Hsame].
  - intros c Hc Hne.
    rewrite (ensure_same_size_differ _ c (frame0 f)); [done| | |done].
    + by apply list_elem_of_further.
    + apply list_elem_of_here.
Qed.

Lemma load_multi_frame_file_witness :
  image_open paged_world "stack.tif" = inr paged_file /\
  more_frames paged_file <> [] /\
  exists stack,
    load_channels_from_paths paged_world ["stack.tif"] = inr stack /\
    channels stack = [dim_image; dim_image].
Proof.
  assert (more_frames paged_file <> []) as Hne by discriminate.
  split; [reflexivity|]. split; [exact Hne|].
  destruct (proj1 (load_multi_frame_file paged_world "stack.tif" paged_file eq_refl Hne))
    as (stack & Hload & Hch & _).
  - intros c Hc. apply list_elem_of_singleton in Hc. by subst c.
  - exists stack. split; [exact Hload|exact Hch].
Defined.

(** X15. A path that cannot be opened makes the whole load fail, and
    [load_images] then reports the error and keeps its state. *)
Theorem load_fails_on_unreadable_path (w : World) (app : App.App) (paths : list string)
    (p : string) (e : exn) :
  p ∈ paths -> image_open w p = inl e ->
  exists e',
    load_channels_from_paths w paths = inl e' /\
    App.load_images w app paths
    = (app, [App.ShowError "Load failed" (exn_str e'); App.RenderEmptyState]).
Proof.
  intros Hin He.
  assert (exists e', load_channels_from_paths w paths = inl e') as [e' Hload].
  { unfold load_channels_from_paths. destruct paths as [|path more];
      [by apply elem_of_nil in Hin|].
    destruct (1 <? length (path :: more))%nat eqn:Hn.
    - destruct (mapM_result_inl (image_open w) (path :: more) p e Hin He) as [e' Hm].
      unfold mbind at 1, result_bind at 1. rewrite Hm. by eexists.
    - apply Nat.ltb_ge in Hn. destruct more; [|simpl in Hn; lia].
      apply list_elem_of_singleton in Hin. subst p.
      unfold mbind at 1, result_bind at 1. rewrite He. by eexists. }
  exists e'. split; [done|]. unfold App.load_images. by rewrite Hload.
Qed.

Lemma load_fails_on_unreadable_path_witness :
  "old.tif" ∈ ["a.png"; "old.tif"] /\
  image_open two_file_world "old.tif" = inl (OSError "cannot identify image file") /\
  exists e',
    App.load_images two_file_world fresh_app ["a.png"; "old.tif"]
    = (fresh_app, [App.ShowError "Load failed" (exn_str e'); App.RenderEmptyState]).
Proof.
  assert ("old.tif" ∈ ["a.png"; "old.tif"]) as Hin
    by (apply list_elem_of_further, list_elem_of_here).
  split; [exact Hin|]. split; [reflexivity|].
  destruct (load_fails_on_unreadable_path two_file_world fresh_app ["a.png"; "old.tif"]
              "old.tif" _ Hin eq_refl) as (e' & _ & Himg).
  exists e'. exact Himg.
Defined.

(** ** Save parameters and metadata *)

Lemma keep_lookup (inf m : Kwargs) (k key : string) :
  (match inf !! k with
   | Some v => if info_truthy v then <[k := v]> m else m
   | None => m
   end) !! key
  = if decide (key = k)
    then match inf !! k with
         | Some v => if info_truthy v then Some v else m !! k
         | None => m !! k
         end
    else m !! key.
Proof.
  destruct (decide (key = k)) as [->|Hne].
  - destruct (inf !! k) as [v|]; [|done].
    destruct (info_truthy v); [by rewrite lookup_insert_eq|done].
  - destruct (inf !! k) as [v|]; [|done].
    destruct (info_truthy v); [by rewrite lookup_insert_ne|done].
Qed.

(** X16. Only the resolution, the compression and the colour profile of the
    opened image are carried over, and only when they are set to
    something. *)
Theorem extract_save_kwargs_lookup (image : ImageFile) (key : string) (v : InfoValue) :
  _extract_save_kwargs image !! key = Some v
  <-> key ∈ ["dpi"; "compression"; "icc_profile"] /\
      info image !! key = Some v /\ info_truthy v = true.
Proof.
  unfold _extract_save_kwargs. cbv zeta. rewrite !keep_lookup, lookup_empty.
  assert (forall k : string,
            match info image !! k with
            | Some v0 => if info_truthy v0 then Some v0 else None
            | None => None
            end = Some v
            <-> info image !! k = Some v /\ info_truthy v = true) as Hone.
  { intros k. destruct (info image !! k) as [v0|]; [|split; [done|by intros [? _]]].
    destruct (info_truthy v0) eqn:Ht.
    - split; [by intros [= ->]|by intros [[= ->] _]].
    - split; [done|]. intros [[= ->] Hv]. congruence. }
  rewrite !elem_of_cons, elem_of_nil.
  destruct (decide (key = "icc_profile")) as [->|Hicc].
  { destruct (info image !! "icc_profile") as [v0|] eqn:E.
    - destruct (info_truthy v0) eqn:Ht.
      + split; [intros [= ->]; eauto 10|by intros (_ & [= ->] & _)].
      + split; [simpl; discriminate|]. intros (_ & [= ->] & Hv). congruence.
    - split; [simpl; discriminate|]. by intros (_ & ? & _). }
  destruct (decide (key = "compression")) as [->|Hcomp].
  { destruct (info image !! "compression") as [v0|] eqn:E.
    - destruct (info_truthy v0) eqn:Ht.
      + split; [intros [= ->]; eauto 10|by intros (_ & [= ->] & _)].
      + split; [simpl; discriminate|]. intros (_ & [= ->] & Hv). congruence.
    - split; [simpl; discriminate|]. by intros (_ & ? & _). }
  destruct (decide (key = "dpi")) as [->|Hdpi].
  { rewrite Hone. split; [intros [? ?]; eauto 10|by intros (_ & ? & ?)]. }
  split; [discriminate|]. intros ([?|[?|[?|[]]]] & _); congruence.
Qed.

Lemma extract_save_kwargs_lookup_witness :
  _extract_save_kwargs profiled_file !! "dpi" = Some (InfoPair 300 300) /\
  _extract_save_kwargs profiled_file !! "compression" = None.
Proof.
  split.
  - apply extract_save_kwargs_lookup. split; [apply list_elem_of_here|].
    split; reflexivity.
  - destruct (_extract_save_kwargs profiled_file !! "compression") as [v|] eqn:E;
      [|reflexivity].
    apply extract_save_kwargs_lookup in E as (_ & Hi & Ht).
    vm_compute in Hi. injection Hi as <-. discriminate.
Defined.

(** X17. After tagging, the description is set and mentions the marker. *)
Theorem add_alignment_tag_marks (tiffinfo : option Directory) (tag_text : string) :
  tag_text <> "" ->
  exists v,
    add_alignment_tag tiffinfo tag_text !! 270%Z = Some v /\
    tag_truthy v = true /\
    contains (lower tag_text) (lower (tag_str v)) = true.
Proof.
  intros Hne.
  assert (String.eqb tag_text "" = false) as Hempty
    by (apply String.eqb_neq; done).
  destruct (add_alignment_tag_cases tiffinfo tag_text)
    as [[-> (v & Hv & Ht & Hc)]|[[-> Hc]| ->]].
  - by exists v.
  - eexists. split; [by rewrite lookup_insert_eq|]. simpl. split.
    + by rewrite app_separator_nonempty.
    + rewrite !lower_app. apply contains_app_r2.
  - eexists. split; [by rewrite lookup_insert_eq|]. simpl. split.
    + by rewrite Hempty.
    + apply contains_refl.
Qed.

Lemma add_alignment_tag_marks_witness :
  default_tag_text <> "" /\
  exists v,
    add_alignment_tag (Some plain_directory) default_tag_text !! 270%Z = Some v /\
    contains (lower default_tag_text) (lower (tag_str v)) = true.
Proof.
  assert (default_tag_text <> "") as Hne by discriminate.
  split; [exact Hne|].
  destruct (add_alignment_tag_marks (Some plain_directory) default_tag_text Hne)
    as (v & Hv & _ & Hc).
  exists v. split; [exact Hv|exact Hc].
Defined.

Lemma append_empty_r (s : string) : s +:+ "" = s.
Proof.
  induction s as [|c s IH]; [done|].
  change (String c s +:+ "") with (String c (s +:+ "")). by rewrite IH.
Qed.

(** X18. Tagging touches nothing but the description, and a description that
    says something keeps its text in front of whatever is appended. *)
Theorem add_alignment_tag_keeps_rest (tiffinfo : option Directory) (tag_text : string) :
  (forall k, k <> 270%Z ->
     add_alignment_tag tiffinfo tag_text !! k = default ∅ tiffinfo !! k) /\
  (forall v, default ∅ tiffinfo !! 270%Z = Some v -> tag_truthy v = true ->
     exists rest,
       description (add_alignment_tag tiffinfo tag_text) = tag_str v +:+ rest).
Proof.
  split; [intros k Hk; by apply add_alignment_tag_lookup_other|].
  intros v Hv Ht. unfold add_alignment_tag.
  assert (match tiffinfo with Some t => _copy_tiffinfo t | None => ∅ end
          = default ∅ tiffinfo) as ->
    by (destruct tiffinfo; simpl; [apply copy_tiffinfo_id|done]).
  rewrite Hv, Ht.
  destruct (contains (lower tag_text) (lower (tag_str v))); simpl.
  - exists "". unfold description. by rewrite Hv, append_empty_r.
  - exists (" | " +:+ tag_text). unfold description.
    by rewrite lookup_insert_eq.
Qed.

Lemma add_alignment_tag_keeps_rest_witness :
  add_alignment_tag (Some plain_directory) default_tag_text !! 256%Z
  = plain_directory !! 256%Z /\
  exists rest,
    description (add_alignment_tag (Some plain_directory) default_tag_text)
    = "original" +:+ rest.
Proof.
  destruct (add_alignment_tag_keeps_rest (Some plain_directory) default_tag_text)
    as [Hother Hdesc].
  split.
  - apply Hother. discriminate.
  - apply (Hdesc (TagText "original")); reflexivity.
Defined.

(** ** The alignment controls *)








Lemma two_channel_app_ready : ready two_channel_app.
Proof. unfold ready. simpl. repeat split; lia. Qed.


(** ** What is exported *)

Lemma aligned_channels_total `{Runtime} (app : App.App) :
  length (App.transforms app) = length (App.channels app) ->
  App.aligned_channels app
  = inr (imap (fun idx channel =>
                 if (idx =? App.reference_index app)%nat then channel
                 else match App.transforms app !! idx with
                      | Some state =>
                          apply_transform channel state (App.resample_method app)
                      | None => channel
                      end) (App.channels app)).
Proof.
  intros Hlen. unfold App.aligned_channels. apply mapM_result_inr.
  apply Forall2_same_length_lookup_2; [by rewrite !length_imap|].
  intros i [idx channel] out Hin Hout.
  rewrite list_lookup_imap in Hin. rewrite list_lookup_imap in Hout.
  destruct (App.channels app !! i) as [ch|] eqn:Hch; [|discriminate].
  simpl in Hin, Hout. injection Hin as <- <-. injection Hout as <-.
  destruct (i =? App.reference_index app)%nat; [done|].
  destruct (lookup_lt_is_Some_2 (App.transforms app) i) as [state ->]; [|done].
  rewrite Hlen. by eapply lookup_lt_Some.
Qed.

(** X20. In a loaded session the export never raises: it has one image per
    channel, of the channel's size; the reference channel is exported as
    it is, whatever its transform says, and every other channel is
    transformed by its own state. *)
Theorem export_of_ready_session `{Runtime} (app : App.App) :
  ready app ->
  exists aligned,
    App.aligned_channels app = inr aligned /\
    length aligned = length (App.channels app) /\
    aligned !! App.reference_index app = App.channels app !! App.reference_index app /\
    (forall i channel state, i <> App.reference_index app ->
       App.channels app !! i = Some channel -> App.transforms app !! i = Some state ->
       aligned !! i = Some (apply_transform channel state (App.resample_method app))) /\
    (forall i channel out, App.channels app !! i = Some channel ->
       aligned !! i = Some out -> size out = size channel).
Proof.
  intros (_ & Hlen & _). eexists. split; [by apply aligned_channels_total|].
  split; [by rewrite length_imap|]. split; [|split].
  - rewrite list_lookup_imap.
    destruct (App.channels app !! App.reference_index app); [|done].
    simpl. by rewrite Nat.eqb_refl.
  - intros i channel state Hne Hch Hst. rewrite list_lookup_imap, Hch. simpl.
    apply Nat.eqb_neq in Hne. by rewrite Hne, Hst.
  - intros i channel out Hch. rewrite list_lookup_imap, Hch. simpl.
    intros [= <-]. destruct (i =? App.reference_index app)%nat; [done|].
    destruct (App.transforms app !! i); [apply apply_transform_size|done].
Qed.

Lemma export_of_ready_session_witness :
  ready two_channel_app /\
  exists aligned,
    App.aligned_channels (H := sample_runtime) two_channel_app = inr aligned /\
    length aligned = 2%nat.
Proof.
  split; [exact two_channel_app_ready|].
  destruct (export_of_ready_session (H := sample_runtime) two_channel_app
              two_channel_app_ready) as (aligned & Ha & Hl & _).
  exists aligned. split; [exact Ha|exact Hl].
Defined.



(** X22. After Reset All the export is the loaded stack itself. *)
Theorem reset_all_exports_originals `{Runtime} (app : App.App) :
  length (App.transforms app) = length (App.channels app) ->
  App.aligned_channels (_reset_all app) = inr (App.channels app).
Proof.
  intros Hlen. unfold _reset_all.
  destruct (App._has_channels app) eqn:Hhas; simpl.
  - rewrite aligned_channels_total by (simpl; by rewrite length_fmap). simpl. f_equal.
    apply list_eq. intros i. rewrite list_lookup_imap.
    destruct (App.channels app !! i) as [ch|] eqn:Hch; [|done]. simpl. f_equal.
    destruct (i =? App.reference_index app)%nat; [done|].
    rewrite list_lookup_fmap.
    destruct (App.transforms app !! i); [|done]. simpl.
    by apply apply_transform_no_motion.
  - unfold App._has_channels in Hhas. apply negb_false_iff in Hhas.
    apply bool_decide_eq_true in Hhas. unfold App.aligned_channels. by rewrite Hhas.
Qed.

Lemma reset_all_exports_originals_witness :
  App.aligned_channels (H := sample_runtime) (_reset_all two_channel_app)
  = inr [dim_image; dim_image].
Proof.
  apply (reset_all_exports_originals (H := sample_runtime) two_channel_app). reflexivity.
Defined.

(** ** A successful save *)








(** ** The display range a load starts with *)


(** ** A fresh session *)

Lemma aligned_identity `{Runtime} (app : App.App) :
  length (App.transforms app) = length (App.channels app) ->
  (forall i state, App.transforms app !! i = Some state -> state = identity_state) ->
  App.aligned_channels app = inr (App.channels app).
Proof.
  intros Hlen Hid. rewrite aligned_channels_total by done. f_equal.
  apply list_eq. intros i. rewrite list_lookup_imap.
  destruct (App.channels app !! i) as [ch|] eqn:Hch; [|done]. simpl. f_equal.
  destruct (i =? App.reference_index app)%nat; [done|].
  destruct (App.transforms app !! i) as [state|] eqn:Hst; [|done].
  rewrite (Hid i state Hst). by apply apply_transform_no_motion.
Qed.

(** X26. Loading a stack of at least two channels starts a session that is
    ready for the controls: channel 1 is the reference, channel 2 the
    active one, nothing is moved yet, and an export at this point would
    give back the loaded channels. *)
Theorem load_images_starts_ready `{Runtime} (w : World) (app : App.App)
    (paths : list string) (stack : ChannelStack) :
  load_channels_from_paths w paths = inr stack ->
  (2 <= length (channels stack))%nat ->
  ready (App.load_images w app paths).1 /\
  App.channels (App.load_images w app paths).1 = channels stack /\
  App.source_paths (App.load_images w app paths).1 = source_paths stack /\
  App.reference_index (App.load_images w app paths).1 = 0%nat /\
  App.active_index (App.load_images w app paths).1 = 1%nat /\
  App.last_save_path (App.load_images w app paths).1 = None /\
  App.aligned_channels (App.load_images w app paths).1 = inr (channels stack).
Proof.
  intros Hload Hn. unfold App.load_images. rewrite Hload.
  assert ((length (channels stack) <? 2)%nat = false) as -> by (apply Nat.ltb_ge; lia).
  cbn [fst]. split_and!; try done.
  - unfold ready. simpl. rewrite length_fmap. split_and!; try done; lia.
  - apply aligned_identity; simpl; [by rewrite length_fmap|].
    intros i state. rewrite list_lookup_fmap.
    destruct (channels stack !! i); [|done]. simpl. by intros [= <-].
Qed.

Lemma load_images_starts_ready_witness :
  ready (App.load_images two_file_world fresh_app ["a.png"; "b.png"]).1 /\
  App.channels (App.load_images two_file_world fresh_app ["a.png"; "b.png"]).1
  = [dim_image; dim_image].
Proof.
  assert (load_channels_from_paths two_file_world ["a.png"; "b.png"]
          = inr (mkChannelStack [dim_image; dim_image] ["a.png"; "b.png"] None (Some ∅)))
    as Hload by reflexivity.
  destruct (load_images_starts_ready (H := sample_runtime) two_file_world fresh_app
              ["a.png"; "b.png"] _ Hload ltac:(simpl; lia)) as (Hr & Hc & _).
  split; [exact Hr|exact Hc].
Defined.

(** ** Window geometry *)

Lemma app_String (c : ascii) (s t : string) : String c s +:+ t = String c (s +:+ t).
Proof. reflexivity. Qed.

Lemma app_empty_l (s : string) : "" +:+ s = s.
Proof. reflexivity. Qed.

Lemma app_assoc_str (a b c : string) : (a +:+ b) +:+ c = a +:+ (b +:+ c).
Proof.
  induction a as [|x a IH]; [done|]. rewrite !app_String. by rewrite IH.
Qed.

Lemma app_nonempty_r (a b : string) : b <> "" -> a +:+ b <> "".
Proof. destruct a; [done|]. rewrite app_String. discriminate. Qed.

Lemma eqb_empty_false (s : string) : s <> "" -> String.eqb s "" = false.
Proof. intros Hs. by apply String.eqb_neq. Qed.

Lemma span_app (p : ascii -> bool) (a r : string) :
  all_chars p a = true -> stops p r -> span p (a +:+ r) = (a, r).
Proof.
  intros Ha Hr. induction a as [|c a IH].
  - rewrite app_empty_l. destruct r as [|c r]; [done|]. simpl in *. by rewrite Hr.
  - simpl in Ha. apply andb_true_iff in Ha as [Hc Ha]. rewrite app_String.
    simpl. rewrite Hc. by rewrite (IH Ha).
Qed.

Lemma int_digits_app (acc : Z) (a b : string) :
  int_digits acc (a +:+ b) = int_digits (int_digits acc a) b.
Proof.
  revert acc. induction a as [|c a IH]; intros acc; [done|].
  rewrite app_String. simpl. apply IH.
Qed.

Lemma all_chars_app (p : ascii -> bool) (a b : string) :
  all_chars p (a +:+ b) = (all_chars p a && all_chars p b)%bool.
Proof.
  induction a as [|c a IH]; [done|]. rewrite app_String. simpl.
  by rewrite IH, andb_assoc.
Qed.

Lemma int_digits_nonneg (s : string) (acc : Z) : (0 <= acc -> 0 <= int_digits acc s)%Z.
Proof.
  revert acc. induction s as [|c s IH]; intros acc Hacc; [done|].
  simpl. apply IH. lia.
Qed.

Lemma pretty_N_char_digit (m : N) :
  (m < 10)%N ->
  isdigit (pretty_N_char m) = true /\
  Z.of_nat (nat_of_ascii (pretty_N_char m) - 48) = Z.of_N m.
Proof.
  intros Hm.
  assert (forall k : nat, (k < 10)%nat ->
            isdigit (pretty_N_char (N.of_nat k)) = true /\
            Z.of_nat (nat_of_ascii (pretty_N_char (N.of_nat k)) - 48)
            = Z.of_N (N.of_nat k)) as Hk.
  { intros k Hlt. do 10 (destruct k as [|k]; [by vm_compute|]). lia. }
  rewrite <- (N2Nat.id m). apply Hk. lia.
Qed.

Lemma pretty_N_go_digits (x : N) (s : string) :
  (0 < x)%N ->
  exists d, pretty_N_go x s = d +:+ s /\ d <> "" /\
            all_chars isdigit d = true /\ int_digits 0 d = Z.of_N x.
Proof.
  revert s. induction (N.lt_wf_0 x) as [x _ IH]. intros s Hx.
  rewrite pretty_N_go_step by done.
  destruct (pretty_N_char_digit (x mod 10)) as [Hd Hv]; [by apply N.mod_lt|].
  set (c := pretty_N_char (x mod 10)) in *.
  destruct (decide (x / 10 = 0)%N) as [Hz|Hnz].
  - rewrite Hz, pretty_N_go_0. exists (String c ""). split; [done|]. split; [done|].
    split; [simpl; by rewrite Hd|]. simpl. rewrite Hv.
    pose proof (N.div_mod x 10 ltac:(lia)) as Hdm. lia.
  - destruct (IH (x / 10)%N) with (s := String c s) as (d & Heq & Hne & Hall & Hval).
    { apply N.div_lt; lia. }
    { by apply N.neq_0_lt_0. }
    exists (d +:+ String c ""). split; [by rewrite Heq, app_assoc_str|].
    split; [by apply app_nonempty_r|].
    split; [rewrite all_chars_app, Hall; simpl; by rewrite Hd|].
    rewrite int_digits_app, Hval. simpl. rewrite Hv.
    pose proof (N.div_mod x 10 ltac:(lia)) as Hdm. lia.
Qed.

Lemma pretty_nonneg_digits (z : Z) :
  (0 <= z)%Z ->
  exists d, pretty z = d /\ d <> "" /\ all_chars isdigit d = true /\ int_digits 0 d = z.
Proof.
  intros Hz. destruct z as [|q|q]; [|clear Hz|lia].
  - exists "0". by vm_compute.
  - destruct (pretty_N_go_digits (N.pos q) "") as (d & Heq & Hne & Hall & Hval); [lia|].
    exists d. split; [|done].
    change (pretty (Z.pos q)) with (pretty_N_go (N.pos q) "").
    rewrite Heq. apply append_empty_r.
Qed.

Lemma number_pretty (z : Z) (r : string) :
  (0 <= z)%Z -> stops isdigit r -> number (pretty z +:+ r) = Some (z, r).
Proof.
  intros Hz Hr. destruct (pretty_nonneg_digits z Hz) as (d & -> & Hne & Hall & Hval).
  unfold number. rewrite (span_app isdigit d r Hall Hr).
  by rewrite (eqb_empty_false d Hne), Hval.
Qed.

Lemma expect_digit (c : ascii) (d r : string) :
  isdigit c = false -> d <> "" -> all_chars isdigit d = true -> expect c (d +:+ r) = None.
Proof.
  intros Hc Hne Hall. destruct d as [|c' d]; [done|]. rewrite app_String. simpl.
  simpl in Hall. apply andb_true_iff in Hall as [Hc' _].
  destruct (Ascii.eqb c c') eqn:E; [|done]. apply Ascii.eqb_eq in E. congruence.
Qed.

Lemma signed_number_pretty (z : Z) (r : string) :
  stops isdigit r -> signed_number (pretty z +:+ r) = Some (z, r).
Proof.
  intros Hr. unfold signed_number. destruct (decide (0 <= z)%Z) as [Hz|Hz].
  - destruct (pretty_nonneg_digits z Hz) as (d & Hd & Hne & Hall & Hval).
    rewrite Hd, (expect_digit "-" d r) by done. rewrite <- Hd. by apply number_pretty.
  - destruct z as [|q|q]; [lia|lia|].
    change (pretty (Z.neg q)) with ("-" +:+ pretty (Z.pos q)).
    rewrite app_String, app_empty_l. simpl.
    rewrite (number_pretty (Z.pos q) r) by (done || lia). done.
Qed.

Lemma geometry_text_unfold (width height x y : Z) :
  geometry_text width height x y
  = pretty width +:+ String "x" (pretty height +:+ String "+"
      (pretty x +:+ String "+" (pretty y +:+ ""))).
Proof. unfold geometry_text. by rewrite append_empty_r. Qed.

Lemma geometry_match (width height x y : Z) :
  (0 <= width)%Z -> (0 <= height)%Z ->
  GEOMETRY_RE_match (geometry_text width height x y) = Some (width, height, x, y).
Proof.
  intros Hw Hh. rewrite geometry_text_unfold. unfold GEOMETRY_RE_match.
  rewrite (number_pretty width) by done. cbn [mbind option_bind expect Ascii.eqb Bool.eqb].
  rewrite (number_pretty height) by done. cbn [mbind option_bind expect Ascii.eqb Bool.eqb].
  rewrite (signed_number_pretty x) by done. cbn [mbind option_bind expect Ascii.eqb Bool.eqb].
  rewrite (signed_number_pretty y) by done. reflexivity.
Qed.

Lemma lstrip_pad (p : ascii -> bool) (pad s : string) :
  all_chars p pad = true -> stops p s -> lstrip p (pad +:+ s) = s.
Proof.
  intros Hpad Hs. induction pad as [|c pad IH].
  - rewrite app_empty_l. destruct s as [|c s]; [done|]. simpl in *. by rewrite Hs.
  - simpl in Hpad. apply andb_true_iff in Hpad as [Hc Hpad].
    rewrite app_String. simpl. rewrite Hc. by apply IH.
Qed.

Lemma rstrip_all (p : ascii -> bool) (pad : string) :
  all_chars p pad = true -> rstrip p pad = "".
Proof.
  induction pad as [|c pad IH]; [done|]. simpl. intros [Hc Hpad]%andb_true_iff.
  by rewrite (IH Hpad), Hc.
Qed.

Lemma rstrip_pad (p : ascii -> bool) (s pad : string) :
  all_chars p pad = true -> rstrip p (s +:+ pad) = rstrip p s.
Proof.
  intros Hpad. induction s as [|c s IH].
  - rewrite app_empty_l. by apply rstrip_all.
  - rewrite app_String. simpl. by rewrite IH.
Qed.

Lemma rstrip_keep (p : ascii -> bool) (a d : string) :
  d <> "" -> all_chars (fun c => negb (p c)) d = true -> rstrip p (a +:+ d) = a +:+ d.
Proof.
  intros Hne Hd. induction a as [|c a IH].
  - rewrite app_empty_l. clear Hne. induction d as [|c d IH]; [done|].
    simpl in Hd. apply andb_true_iff in Hd as [Hc Hd]. simpl. rewrite (IH Hd).
    apply negb_true_iff in Hc. by rewrite Hc, andb_false_r.
  - rewrite app_String. simpl. rewrite IH.
    by rewrite (eqb_empty_false _ (app_nonempty_r a d Hne)).
Qed.

Lemma all_chars_impl (p q : ascii -> bool) (s : string) :
  (forall c, p c = true -> q c = true) -> all_chars p s = true -> all_chars q s = true.
Proof.
  intros Hpq. induction s as [|c s IH]; [done|]. simpl.
  intros [Hc Hs]%andb_true_iff. by rewrite (Hpq c Hc), IH.
Qed.

Lemma digit_not_space (c : ascii) : isdigit c = true -> isspace c = false.
Proof.
  unfold isdigit, isspace. set (n := nat_of_ascii c).
  intros [H1%Nat.leb_le H2%Nat.leb_le]%andb_true_iff.
  rewrite (proj2 (Nat.leb_gt n 13)), (proj2 (Nat.leb_gt n 32)) by lia.
  rewrite (proj2 (Nat.eqb_neq n 133)), (proj2 (Nat.eqb_neq n 160)) by lia.
  by rewrite !andb_false_r.
Qed.

Lemma pretty_ends_in_digits (z : Z) :
  exists a d, pretty z = a +:+ d /\ d <> "" /\ all_chars isdigit d = true.
Proof.
  destruct (decide (0 <= z)%Z) as [Hz|Hz].
  - destruct (pretty_nonneg_digits z Hz) as (d & Hd & Hne & Hall & _).
    exists "", d. by rewrite app_empty_l.
  - destruct z as [|q|q]; [lia|lia|].
    destruct (pretty_nonneg_digits (Z.pos q) ltac:(lia)) as (d & Hd & Hne & Hall & _).
    exists "-", d. split; [|done].
    change (pretty (Z.neg q)) with ("-" +:+ pretty (Z.pos q)). by rewrite Hd.
Qed.

Lemma strip_geometry_text (width height x y : Z) (before after : string) :
  (0 <= width)%Z ->
  all_chars isspace before = true -> all_chars isspace after = true ->
  strip (before +:+ geometry_text width height x y +:+ after)
  = geometry_text width height x y.
Proof.
  intros Hw Hb Ha. unfold strip.
  destruct (pretty_nonneg_digits width Hw) as (d & Hd & Hne & Hall & _).
  rewrite lstrip_pad; [|done|].
  - rewrite rstrip_pad by done.
    destruct (pretty_ends_in_digits y) as (a & dy & Hy & Hney & Hally).
    unfold geometry_text. rewrite Hy.
    rewrite <- !app_assoc_str. apply rstrip_keep; [done|].
    eapply all_chars_impl; [|exact Hally].
    intros c Hc. by rewrite (digit_not_space c Hc).
  - unfold geometry_text. rewrite Hd. destruct d as [|c d]; [done|].
    rewrite !app_String. simpl. simpl in Hall.
    apply andb_true_iff in Hall as [Hc _]. by apply digit_not_space.
Qed.

Lemma geometry_round_trip (width height x y : Z) :
  (0 <= width)%Z -> (0 <= height)%Z ->
  parse_geometry (geometry_text width height x y) = inr (width, height, x, y).
Proof.
  intros Hw Hh. unfold parse_geometry.
  pose proof (strip_geometry_text width height x y "" "" Hw eq_refl eq_refl) as Hs.
  rewrite app_empty_l, append_empty_r in Hs. rewrite Hs. by rewrite geometry_match.
Qed.

(** X27. Every geometry text the screenshot script builds, with any white
    space around it, is read back as the numbers it was built from. *)
Theorem geometry_text_parses_back (width height x y : Z) (before after : string) :
  (0 <= width)%Z -> (0 <= height)%Z ->
  all_chars isspace before = true -> all_chars isspace after = true ->
  parse_geometry (before +:+ geometry_text width height x y +:+ after)
  = inr (width, height, x, y).
Proof.
  intros Hw Hh Hb Ha. unfold parse_geometry.
  rewrite strip_geometry_text by done. by rewrite geometry_match.
Qed.

Lemma geometry_text_parses_back_witness :
  parse_geometry (" " +:+ geometry_text 1280 820 (-40) 40 +:+ String "010" "")
  = inr (1280, 820, -40, 40)%Z.
Proof.
  apply geometry_text_parses_back; [lia|lia|reflexivity|reflexivity].
Defined.

Lemma number_nonneg (s r : string) (n : Z) : number s = Some (n, r) -> (0 <= n)%Z.
Proof.
  unfold number. destruct (span isdigit s) as [d r'].
  destruct (String.eqb d ""); [discriminate|]. intros [= <- _].
  by apply int_digits_nonneg.
Qed.

(** X28. What [parse_geometry] accepts has a width and a height that are not
    negative, and formatting the result and parsing it again gives the
    same numbers; a width or height of zero gets through the parser and is
    turned down by [window_bbox]. *)
Theorem parse_geometry_is_stable (geometry : string) (width height x y : Z) :
  parse_geometry geometry = inr (width, height, x, y) ->
  (0 <= width)%Z /\ (0 <= height)%Z /\
  parse_geometry (geometry_text width height x y) = inr (width, height, x, y) /\
  window_bbox x y width height
  = if ((width =? 0)%Z || (height =? 0)%Z)%bool
    then inl (ValueError "Window size must be positive.")
    else inr (x, y, (x + width)%Z, (y + height)%Z).
Proof.
  unfold parse_geometry at 1.
  destruct (GEOMETRY_RE_match (strip geometry)) as [groups|] eqn:Hm; [|discriminate].
  intros [= ->].
  assert (0 <= width /\ 0 <= height)%Z as [Hw Hh].
  { unfold GEOMETRY_RE_match in Hm.
    destruct (number (strip geometry)) as [[w1 s1]|] eqn:Hn1; [|discriminate].
    cbn [mbind option_bind] in Hm.
    destruct (expect "x" s1) as [s2|]; [|discriminate]. cbn [mbind option_bind] in Hm.
    destruct (number s2) as [[h1 s3]|] eqn:Hn2; [|discriminate].
    cbn [mbind option_bind] in Hm.
    destruct (expect "+" s3) as [s4|]; [|discriminate]. cbn [mbind option_bind] in Hm.
    destruct (signed_number s4) as [[x1 s5]|]; [|discriminate].
    cbn [mbind option_bind] in Hm.
    destruct (expect "+" s5) as [s6|]; [|discriminate]. cbn [mbind option_bind] in Hm.
    destruct (signed_number s6) as [[y1 s7]|]; [|discriminate].
    cbn [mbind option_bind] in Hm.
    destruct (at_end s7); [|discriminate]. injection Hm as <- <- <- <-.
    split; [by eapply number_nonneg|by eapply number_nonneg]. }
  split; [done|]. split; [done|]. split.
  - pose proof (geometry_round_trip width height x y Hw Hh) as Hback. exact Hback.
  - unfold window_bbox.
    destruct (width =? 0)%Z eqn:E1; destruct (height =? 0)%Z eqn:E2;
      destruct (width <=? 0)%Z eqn:E3; destruct (height <=? 0)%Z eqn:E4; simpl; try done; lia.
Qed.

Lemma parse_geometry_is_stable_witness :
  parse_geometry "800x600+10+20" = inr (800, 600, 10, 20)%Z /\
  parse_geometry (geometry_text 800 600 10 20) = inr (800, 600, 10, 20)%Z.
Proof.
  assert (parse_geometry "800x600+10+20" = inr (800, 600, 10, 20)%Z) as Hp
    by reflexivity.
  split; [exact Hp|].
  exact (proj1 (proj2 (proj2 (parse_geometry_is_stable _ _ _ _ _ Hp)))).
Defined.

(** ** Dropped files *)

Lemma length_app_str (a b : string) :
  String.length (a +:+ b) = (String.length a + String.length b)%nat.
Proof. induction a as [|c a IH]; [done|]. rewrite app_String. simpl. by rewrite IH. Qed.

Lemma span_split (p : ascii -> bool) (s a b : string) : span p s = (a, b) -> s = a +:+ b.
Proof.
  revert a b. induction s as [|c s IH]; intros a b; simpl.
  - by intros [= <- <-].
  - destruct (p c).
    + destruct (span p s) as [a' b'] eqn:E. intros [= <- <-].
      rewrite app_String. by rewrite (IH a' b' eq_refl).
    + by intros [= <- <-].
Qed.

Lemma findall_empty (fuel : nat) : findall_tokens fuel "" = [].
Proof. by destruct fuel. Qed.

Lemma braced_token_rest (c : ascii) (r tok rest : string) :
  braced_token (String c r) = Some (tok, rest) ->
  (String.length rest <= String.length r)%nat.
Proof.
  unfold braced_token. cbn [expect]. destruct (Ascii.eqb "{" c); [|discriminate].
  destruct (span _ r) as [body r'] eqn:E. apply span_split in E.
  destruct r' as [|c' r'']; cbn [expect]; [discriminate|].
  destruct (Ascii.eqb "}" c'); [|discriminate].
  destruct (String.eqb body ""); [discriminate|]. intros [= _ <-].
  rewrite E, length_app_str. simpl. lia.
Qed.

Lemma plain_token_rest (c : ascii) (r tok rest : string) :
  plain_token (String c r) = Some (tok, rest) ->
  (String.length rest <= String.length r)%nat.
Proof.
  unfold plain_token. destruct (span plain_char (String c r)) as [a b] eqn:E.
  apply span_split in E. destruct a as [|c' a]; [discriminate|]. simpl.
  intros [= _ <-]. apply (f_equal String.length) in E.
  rewrite app_String in E. simpl in E. rewrite length_app_str in E. lia.
Qed.

Lemma findall_fuel (n : nat) (s : string) (fuel1 fuel2 : nat) :
  (String.length s <= n)%nat ->
  (String.length s <= fuel1)%nat -> (String.length s <= fuel2)%nat ->
  findall_tokens fuel1 s = findall_tokens fuel2 s.
Proof.
  revert s fuel1 fuel2. induction n as [|n IH]; intros s fuel1 fuel2 Hn H1 H2.
  - destruct s; [by rewrite !findall_empty|simpl in Hn; lia].
  - destruct s as [|c r]; [by rewrite !findall_empty|]. simpl in Hn, H1, H2.
    destruct fuel1 as [|fuel1]; [lia|]. destruct fuel2 as [|fuel2]; [lia|].
    cbn [findall_tokens].
    destruct (braced_token (String c r)) as [[tok rest]|] eqn:Eb.
    { apply braced_token_rest in Eb. f_equal. apply IH; lia. }
    destruct (plain_token (String c r)) as [[tok rest]|] eqn:Ep.
    { apply plain_token_rest in Ep. f_equal. apply IH; lia. }
    apply IH; lia.
Qed.

Lemma braced_token_other (c : ascii) (r : string) :
  Ascii.eqb c "{" = false -> braced_token (String c r) = None.
Proof.
  intros Hc. unfold braced_token. cbn [expect]. by rewrite Ascii.eqb_sym, Hc.
Qed.

Lemma outside_braces_plain (s : string) :
  all_chars outside_braces s = true -> all_chars plain_char s = true.
Proof.
  apply all_chars_impl. intros c. unfold outside_braces.
  by intros [[? _]%andb_true_iff _]%andb_true_iff.
Qed.

Lemma findall_plain (a : string) (fuel : nat) :
  all_chars outside_braces a = true -> a <> "" ->
  (String.length a <= fuel)%nat -> findall_tokens fuel a = [a].
Proof.
  intros Hall Hne Hfuel. pose proof (outside_braces_plain a Hall) as Hplain.
  destruct a as [|c a]; [done|]. destruct fuel as [|fuel]; [simpl in Hfuel; lia|].
  cbn [findall_tokens]. simpl in Hall.
  apply andb_true_iff in Hall as [Hc _]. unfold outside_braces in Hc.
  apply andb_true_iff in Hc as [[_ Hc%negb_true_iff]%andb_true_iff _].
  rewrite (braced_token_other c a Hc). unfold plain_token.
  rewrite <- (append_empty_r (String c a)) at 1.
  rewrite (span_app plain_char (String c a) "" Hplain I).
  cbn [String.eqb]. by rewrite findall_empty.
Qed.

Lemma findall_cut (a b : string) (sep : ascii) :
  all_chars outside_braces a = true ->
  plain_char sep = false -> Ascii.eqb sep "{" = false ->
  findall_tokens (String.length (a +:+ String sep b)) (a +:+ String sep b)
  = findall_tokens (String.length a) a ++ findall_tokens (String.length b) b.
Proof.
  intros Hall Hsep Hbrace.
  assert (forall fuel, (String.length b < fuel)%nat ->
            findall_tokens fuel (String sep b) = findall_tokens (String.length b) b)
    as Hskip.
  { intros fuel Hfuel. destruct fuel as [|fuel]; [lia|]. cbn [findall_tokens].
    rewrite (braced_token_other sep b Hbrace). unfold plain_token. cbn [span].
    rewrite Hsep. cbn [String.eqb]. apply (findall_fuel (String.length b)); lia. }
  destruct a as [|c a].
  - rewrite app_empty_l, findall_empty, app_nil_l. apply Hskip. simpl. lia.
  - rewrite (findall_plain (String c a) _ Hall) by done.
    pose proof (outside_braces_plain _ Hall) as Hplain.
    rewrite app_String. cbn [String.length findall_tokens].
    simpl in Hall. apply andb_true_iff in Hall as [Hc _]. unfold outside_braces in Hc.
    apply andb_true_iff in Hc as [[_ Hc%negb_true_iff]%andb_true_iff _].
    rewrite (braced_token_other c _ Hc). unfold plain_token.
    rewrite <- app_String.
    rewrite (span_app plain_char (String c a) (String sep b) Hplain Hsep).
    cbn [String.eqb app]. f_equal. apply Hskip. rewrite length_app_str. simpl. lia.
Qed.

Lemma parse_drop_files_unfold (url_path : string -> string) (os_nt : bool)
    (data : string) :
  parse_drop_files url_path os_nt data
  = filter (fun p => p <> "")
      ((fun token =>
          normalize_drop_path url_path os_nt (strip_chars ["{"; "}"]%char (strip token)))
         <$> findall_tokens (String.length data) data).
Proof. by destruct data. Qed.

Lemma not_brace_strip (c : ascii) :
  negb (existsb (Ascii.eqb c) ["{"; "}"]%char) = not_brace c.
Proof.
  unfold not_brace. cbn [existsb].
  destruct (Ascii.eqb c "{"); destruct (Ascii.eqb c "}"); reflexivity.
Qed.

Lemma strip_chars_braced (p : string) :
  p <> "" -> all_chars not_brace p = true ->
  strip_chars ["{"; "}"]%char (String "{" (p +:+ "}")) = p.
Proof.
  intros Hne Hall. unfold strip_chars. cbn [lstrip].
  change (existsb (Ascii.eqb "{") ["{"; "}"]%char) with true. cbv iota.
  assert (all_chars (fun c => negb (existsb (Ascii.eqb c) ["{"; "}"]%char)) p = true)
    as Hkeep.
  { eapply all_chars_impl; [|exact Hall]. intros c Hc. by rewrite not_brace_strip. }
  rewrite (lstrip_pad _ "" (p +:+ "}")); [|done|].
  - rewrite rstrip_pad by reflexivity.
    rewrite <- (app_empty_l p) at 1. by apply rstrip_keep.
  - destruct p as [|c p]; [done|]. rewrite app_String. simpl. simpl in Hkeep.
    apply andb_true_iff in Hkeep as [Hc _]. by apply negb_true_iff in Hc.
Qed.

Lemma strip_braced (p : string) :
  strip (String "{" (p +:+ "}")) = String "{" (p +:+ "}").
Proof.
  unfold strip. cbn [lstrip]. change (isspace "{") with false. cbv iota.
  rewrite <- app_String. by apply rstrip_keep.
Qed.

(** X29. A path dropped inside braces comes back whole, white space and all. *)
Theorem parse_drop_files_braced (url_path : string -> string) (os_nt : bool)
    (p : string) :
  p <> "" -> all_chars not_brace p = true -> String.prefix "file://" p = false ->
  parse_drop_files url_path os_nt ("{" +:+ p +:+ "}") = [p].
Proof.
  intros Hne Hall Hurl. rewrite parse_drop_files_unfold.
  change ("{" +:+ p +:+ "}") with (String "{" (p +:+ "}")).
  cbn [String.length findall_tokens].
  assert (braced_token (String "{" (p +:+ "}")) = Some (String "{" (p +:+ "}"), ""))
    as ->.
  { unfold braced_token. cbn [expect]. change (Ascii.eqb "{" "{") with true. cbv iota.
    rewrite (span_app _ p "}"); [|..|reflexivity].
    - cbn [expect]. change (Ascii.eqb "}" "}") with true. cbv iota.
      by rewrite (eqb_empty_false p Hne).
    - eapply all_chars_impl; [|exact Hall]. intros c. unfold not_brace.
      by intros [_ ?]%andb_true_iff. }
  rewrite findall_empty. cbn [fmap list_fmap].
  rewrite strip_braced, (strip_chars_braced p Hne Hall).
  unfold normalize_drop_path. rewrite Hurl.
  rewrite filter_cons_True by done. by rewrite filter_nil.
Qed.

Lemma parse_drop_files_braced_witness :
  parse_drop_files (fun s => s) false "{/tmp/my file.tif}" = ["/tmp/my file.tif"].
Proof.
  apply (parse_drop_files_braced (fun s => s) false "/tmp/my file.tif");
    [discriminate|reflexivity|reflexivity].
Defined.

Lemma all_chars_lstrip (q p : ascii -> bool) (s : string) :
  all_chars q s = true -> all_chars q (lstrip p s) = true.
Proof.
  induction s as [|c s IH]; [done|]. intros Hs. cbn [lstrip].
  destruct (p c); [|done]. simpl in Hs. apply andb_true_iff in Hs as [_ Hs]. by apply IH.
Qed.

Lemma all_chars_rstrip (q p : ascii -> bool) (s : string) :
  all_chars q s = true -> all_chars q (rstrip p s) = true.
Proof.
  induction s as [|c s IH]; [done|]. simpl. intros [Hc Hs]%andb_true_iff.
  destruct (String.eqb (rstrip p s) "" && p c)%bool; [done|].
  simpl. by rewrite Hc, IH.
Qed.

Lemma strip_chars_no_braces (s : string) :
  all_chars not_brace s = true -> strip_chars ["{"; "}"]%char s = s.
Proof.
  intros Hall. unfold strip_chars.
  assert (all_chars (fun c => negb (existsb (Ascii.eqb c) ["{"; "}"]%char)) s = true)
    as Hkeep.
  { eapply all_chars_impl; [|exact Hall]. intros c Hc. by rewrite not_brace_strip. }
  destruct s as [|c s]; [done|].
  rewrite (lstrip_pad _ "" (String c s)); [|done|].
  - rewrite <- (app_empty_l (String c s)) at 1. by apply rstrip_keep.
  - simpl. simpl in Hkeep. apply andb_true_iff in Hkeep as [Hc _].
    by apply negb_true_iff in Hc.
Qed.

Lemma outside_braces_not_brace (s : string) :
  all_chars outside_braces s = true -> all_chars not_brace s = true.
Proof.
  apply all_chars_impl. intros c. unfold outside_braces, not_brace.
  intros [[_ H1]%andb_true_iff H2]%andb_true_iff. by rewrite H1, H2.
Qed.

(** X30. Outside braces the backslash and the letter s end a path and are
    lost, while white space does not separate paths: a run of other
    characters is one single path, and whatever follows an s or a
    backslash is read on its own. *)
Theorem parse_drop_files_unbraced (url_path : string -> string) (os_nt : bool)
    (a b : string) (sep : ascii) :
  all_chars outside_braces a = true -> sep = "s"%char \/ sep = "092"%char ->
  parse_drop_files url_path os_nt a
  = filter (fun p => p <> "") [normalize_drop_path url_path os_nt (strip a)] /\
  parse_drop_files url_path os_nt (a +:+ String sep b)
  = parse_drop_files url_path os_nt a ++ parse_drop_files url_path os_nt b.
Proof.
  intros Hall Hsep. split.
  - destruct (decide (a = "")) as [->|Hne]; [reflexivity|].
    rewrite parse_drop_files_unfold.
    rewrite (findall_plain a _ Hall Hne) by done. cbn [fmap list_fmap].
    rewrite strip_chars_no_braces; [done|].
    unfold strip. apply all_chars_rstrip, all_chars_lstrip.
    by apply outside_braces_not_brace.
  - rewrite !parse_drop_files_unfold.
    rewrite (findall_cut a b sep Hall); [|by destruct Hsep as [->| ->]..].
    by rewrite fmap_app, filter_app.
Qed.

Lemma parse_drop_files_unbraced_witness :
  parse_drop_files (fun s => s) false "/tmp/a.tif /tmp/b.tif" = ["/tmp/a.tif /tmp/b.tif"] /\
  parse_drop_files (fun s => s) false "/tmp/slide.tif" = ["/tmp/"; "lide.tif"].
Proof.
  split.
  - rewrite (proj1 (parse_drop_files_unbraced (fun s => s) false
                      "/tmp/a.tif /tmp/b.tif" "" "s" eq_refl (or_introl eq_refl))).
    reflexivity.
  - change "/tmp/slide.tif" with ("/tmp/" +:+ String "s" "lide.tif").
    rewrite (proj2 (parse_drop_files_unbraced (fun s => s) false
                      "/tmp/" "lide.tif" "s" eq_refl (or_introl eq_refl))).
    reflexivity.
Defined.
